(** * sc4texture: the tile deduplication engine

    A shallow embedding of [imageset.go] and [hash.go]: the pixel hasher
    ([Hash], [convertUint32ToBytes]), the orientation variants built in
    [AddImage], the grid extraction of [Process] and the label table
    [GetOrientationLabel], followed by the properties of the written
    specification.

    Conventions.
    - Go's [int] is 64 bits wide.  Every [int] computed here is bounded by
      the pixel dimensions of a decoded image, so it is carried by [Z]
      without a wrap; [uint32], [uint64] and [byte] values wrap, and the
      wrap is written out ([u32], [u64], [u8]).
    - Go's [/] and [%] on [int] truncate towards zero: [Z.quot], [Z.rem].
    - A run-time panic (index out of range, [make] with a negative length,
      integer division by zero) is the result [None]. *)

From stdpp Require Import gmap list strings.

Local Open Scope Z_scope.

(** ** Machine integers *)

Definition u8 (v : Z) : Z := v mod 2 ^ 8.
Definition u32 (v : Z) : Z := v mod 2 ^ 32.
Definition u64 (v : Z) : Z := v mod 2 ^ 64.

(** ** Loops

    [for i := lo; i < hi; i++ { s = body i s }], without and with a
    possible panic in the body.  [n] counts the iterations left. *)

Fixpoint for_loop {S : Type} (n : nat) (i : Z) (body : Z → S → S) (s : S) : S :=
  match n with
  | O => s
  | Datatypes.S n' => for_loop n' (i + 1) body (body i s)
  end.

Definition for_range {S : Type} (lo hi : Z) (body : Z → S → S) (s : S) : S :=
  for_loop (Z.to_nat (hi - lo)) lo body s.

Fixpoint for_loopM {S : Type} (n : nat) (i : Z) (body : Z → S → option S) (s : S)
  : option S :=
  match n with
  | O => Some s
  | Datatypes.S n' =>
      match body i s with
      | Some s' => for_loopM n' (i + 1) body s'
      | None => None
      end
  end.

Definition for_rangeM {S : Type} (lo hi : Z) (body : Z → S → option S) (s : S)
  : option S :=
  for_loopM (Z.to_nat (hi - lo)) lo body s.

(** ** Slices

    [make([]T, n)] and [s[i] = v]. *)

Definition make {T : Type} (zero : T) (n : Z) : option (list T) :=
  if decide (0 ≤ n) then Some (replicate (Z.to_nat n) zero) else None.

Definition store {T : Type} (s : list T) (i : Z) (v : T) : option (list T) :=
  if decide (0 ≤ i < Z.of_nat (length s)) then Some (<[Z.to_nat i := v]> s) else None.

(** ** Package image/color of the Go library: the non-premultiplied colour *)

Module color.

Record NRGBA : Type := mkNRGBA { R : Z; G : Z; B : Z; A : Z }.

Definition zero : NRGBA := mkNRGBA 0 0 0 0.

(** One channel of [NRGBA.RGBA]:
    [r = uint32(c.R); r |= r << 8; r *= uint32(c.A); r /= 0xff]. *)
Definition premultiply (c a : Z) : Z :=
  let r := u32 c in
  let r := Z.lor r (u32 (Z.shiftl r 8)) in
  let r := u32 (r * u32 a) in
  Z.quot r 255.

(** [a = uint32(c.A); a |= a << 8]. *)
Definition widen (a : Z) : Z :=
  let a := u32 a in
  Z.lor a (u32 (Z.shiftl a 8)).

Definition RGBA (c : NRGBA) : Z * Z * Z * Z :=
  (premultiply (R c) (A c), premultiply (G c) (A c), premultiply (B c) (A c),
   widen (A c)).

End color.

(** ** Package image of the Go library: points, rectangles, pixel surfaces *)

Module image.

Record Point : Type := mkPoint { X : Z; Y : Z }.

Record Rectangle : Type := mkRectangle { Min : Point; Max : Point }.

Definition Dx (r : Rectangle) : Z := X (Max r) - X (Min r).
Definition Dy (r : Rectangle) : Z := Y (Max r) - Y (Min r).

(** [image.Rect] orders its corners. *)
Definition Rect (x0 y0 x1 y1 : Z) : Rectangle :=
  let '(x0, x1) := if decide (x0 > x1) then (x1, x0) else (x0, x1) in
  let '(y0, y1) := if decide (y0 > y1) then (y1, y0) else (y0, y1) in
  mkRectangle (mkPoint x0 y0) (mkPoint x1 y1).

Definition ZR : Rectangle := mkRectangle (mkPoint 0 0) (mkPoint 0 0).

Definition Empty (r : Rectangle) : bool :=
  bool_decide (X (Min r) >= X (Max r) ∨ Y (Min r) >= Y (Max r)).

Definition Intersect (r s : Rectangle) : Rectangle :=
  let x0 := Z.max (X (Min r)) (X (Min s)) in
  let y0 := Z.max (Y (Min r)) (Y (Min s)) in
  let x1 := Z.min (X (Max r)) (X (Max s)) in
  let y1 := Z.min (Y (Max r)) (Y (Max s)) in
  let r' := mkRectangle (mkPoint x0 y0) (mkPoint x1 y1) in
  if Empty r' then ZR else r'.

Definition Sub (r : Rectangle) (p : Point) : Rectangle :=
  mkRectangle (mkPoint (X (Min r) - X p) (Y (Min r) - Y p))
              (mkPoint (X (Max r) - X p) (Y (Max r) - Y p)).

(** A decoded or generated picture: its bounds and the colour at each
    point.  Every picture handled by the engine after [imaging.Crop] is
    an [*image.NRGBA]; a decoded source picture is seen through the
    conversion to that colour model, which is the first thing every
    [imaging] function applies to it.  [At] is only ever read inside
    [Bounds]. *)
Record Image : Type := mkImage { Bounds : Rectangle; At : Z → Z → color.NRGBA }.

(** Well-formed bounds ([Min.X <= Max.X], [Min.Y <= Max.Y]), which every
    Go picture has. *)
Definition wf (img : Image) : Prop :=
  0 ≤ Dx (Bounds img) ∧ 0 ≤ Dy (Bounds img).

Definition inside (r : Rectangle) (x y : Z) : Prop :=
  X (Min r) ≤ x < X (Max r) ∧ Y (Min r) ≤ y < Y (Max r).

(** Pixel-for-pixel equality: the same bounds, the same colour at every
    point inside them. *)
Definition same (a b : Image) : Prop :=
  Bounds a = Bounds b ∧
  ∀ x y, inside (Bounds a) x y → At a x y = At b x y.

End image.

(** ** Package github.com/disintegration/imaging

    The package is a dependency of the program; its source is not part of
    the repository.  The spec (sections 4.2 and 4.3) fixes the eight
    variants as identity, three quarter-turn rotations, the horizontal
    mirror (flip across the vertical axis) and the mirror followed by the
    three rotations, asks for one fixed rotation direction, and describes
    the crop of a grid cell.  The package documents its quarter turns as
    counter-clockwise, which is the direction taken here.  Every function
    returns a fresh picture whose bounds start at (0, 0) and reads the
    source relative to the source's own [Bounds.Min]. *)

Module imaging.
Import image.

(** The pixel of [src] at offset [(x, y)] from the corner of its bounds. *)
Definition px (src : Image) (x y : Z) : color.NRGBA :=
  At src (X (Min (Bounds src)) + x) (Y (Min (Bounds src)) + y).

Definition NewNRGBA (w h : Z) (f : Z → Z → color.NRGBA) : Image :=
  mkImage (Rect 0 0 w h) f.

(** Modelled from the spec: [imaging.Crop], missing from the sources; the
    sub-picture of [img] inside [rect] (section 4.3: the axis-aligned
    sub-region of the cell), moved to the origin. *)
Definition Crop (img : Image) (rect : Rectangle) : Image :=
  let r := Sub (Intersect rect (Bounds img)) (Min (Bounds img)) in
  if Empty r then mkImage ZR (λ _ _, color.zero)
  else NewNRGBA (Dx r) (Dy r) (λ x y, px img (X (Min r) + x) (Y (Min r) + y)).

(** Modelled from the spec: [imaging.Rotate90], missing from the sources;
    the rotation of variant 1 (section 4.2), a quarter turn
    counter-clockwise.  Row [y] of the result is column [w - 1 - y] of the
    source, top down. *)
Definition Rotate90 (img : Image) : Image :=
  let w := Dx (Bounds img) in
  let h := Dy (Bounds img) in
  NewNRGBA h w (λ x y, px img (w - 1 - y) x).

(** Modelled from the spec: [imaging.Rotate180], missing from the sources;
    the rotation of variant 2 (section 4.2), a half turn. *)
Definition Rotate180 (img : Image) : Image :=
  let w := Dx (Bounds img) in
  let h := Dy (Bounds img) in
  NewNRGBA w h (λ x y, px img (w - 1 - x) (h - 1 - y)).

(** Modelled from the spec: [imaging.Rotate270], missing from the sources;
    the rotation of variant 3 (section 4.2), three quarter turns
    counter-clockwise.  Row [y] of the result is column [y] of the source,
    bottom up. *)
Definition Rotate270 (img : Image) : Image :=
  let w := Dx (Bounds img) in
  let h := Dy (Bounds img) in
  NewNRGBA h w (λ x y, px img y (h - 1 - x)).

(** Modelled from the spec: [imaging.FlipH], missing from the sources; the
    horizontal mirror of variant 4 (section 4.2), a flip across the vertical
    axis. *)
Definition FlipH (img : Image) : Image :=
  let w := Dx (Bounds img) in
  let h := Dy (Bounds img) in
  NewNRGBA w h (λ x y, px img (w - 1 - x) y).

End imaging.

(** ** Package hash/fnv of the Go library: 64-bit FNV-1a *)

Module fnv.

Definition offset64 : Z := 14695981039346656037.
Definition prime64 : Z := 1099511628211.

Definition New64a : Z := offset64.

(** [hash ^= uint64(c); hash *= prime64] *)
Definition step (hash c : Z) : Z := u64 (Z.lxor hash (u64 c) * prime64).

Definition Write (hash : Z) (data : list Z) : Z := fold_left step data hash.

Definition Sum64 (hash : Z) : Z := hash.

End fnv.

(** ** hash.go

    [make([]byte, size)] needs a size that is not negative, which the
    well-formed bounds of every Go picture give, and the four-byte slices
    [data[pos:pos + 4]] then lie inside the buffer (see [writePixel_step]
    and [hashData_packed] below): [Hash] does not panic on a picture and is
    a total function here. *)

(** [bytes] is the buffer that the slice argument of the Go function
    shares with its caller, [off] the start of that slice in it. *)
Definition convertUint32ToBytes (value : Z) (bytes : list Z) (off : Z) : list Z :=
  let bytes := <[Z.to_nat (off + 0) := u8 (Z.land (Z.shiftr value 24) 255)]> bytes in
  let bytes := <[Z.to_nat (off + 1) := u8 (Z.land (Z.shiftr value 16) 255)]> bytes in
  let bytes := <[Z.to_nat (off + 2) := u8 (Z.land (Z.shiftr value 8) 255)]> bytes in
  let bytes := <[Z.to_nat (off + 3) := u8 (Z.land value 255)]> bytes in
  bytes.

(** The body of the inner loop of [Hash] on the state [(data, pos)]. *)
Definition hashPixel (img : image.Image) (y x : Z) (st : list Z * Z) : list Z * Z :=
  let '(data, pos) := st in
  let '(r, g, b, a) := color.RGBA (image.At img x y) in
  let data := convertUint32ToBytes r data pos in
  let pos := pos + 4 in
  let data := convertUint32ToBytes g data pos in
  let pos := pos + 4 in
  let data := convertUint32ToBytes b data pos in
  let pos := pos + 4 in
  let data := convertUint32ToBytes a data pos in
  (data, pos).

(** The buffer handed to [hash.Write]. *)
Definition hashData (img : image.Image) : list Z :=
  let rect := image.Bounds img in
  let size := (image.X (image.Max rect) - image.X (image.Min rect))
              * (image.Y (image.Max rect) - image.Y (image.Min rect)) * 16 in
  let data := replicate (Z.to_nat size) 0 in
  let pos := 0 in
  fst (for_range (image.Y (image.Min rect)) (image.Y (image.Max rect))
         (λ y st,
            for_range (image.X (image.Min rect)) (image.X (image.Max rect))
              (hashPixel img y) st)
         (data, pos)).

Definition Hash (img : image.Image) : Z :=
  let hash := fnv.New64a in
  let hash := fnv.Write hash (hashData img) in
  fnv.Sum64 hash.

(** ** imageset.go *)

Record ImageSet : Type := mkImageSet {
  SourceImagePath : string;
  protoImages : gmap Z image.Image;
  images : list Z;
  orientations : list Z;
  stride : Z
}.

Definition NewImageSet (imagePath : string) : ImageSet :=
  mkImageSet imagePath ∅ [] [] 0.

Definition calculateStride (bounds : image.Rectangle) : Z :=
  Z.quot (image.X (image.Max bounds) - image.X (image.Min bounds)) 128.

Definition calculateNumberImages (bounds : image.Rectangle) : Z * Z :=
  let y := Z.quot (image.Y (image.Max bounds) - image.Y (image.Min bounds)) 128 in
  let x := calculateStride bounds in
  (x, y).

(** The eight pictures [images[0..7]] of [AddImage]. *)
Definition variants (img : image.Image) : list image.Image :=
  let i4 := imaging.FlipH img in
  [ img; imaging.Rotate90 img; imaging.Rotate180 img; imaging.Rotate270 img;
    i4; imaging.Rotate90 i4; imaging.Rotate180 i4; imaging.Rotate270 i4 ].

(** The scan loop of [AddImage], [n] iterations left, on the state
    [(found, firstHash, p)]; a hit ends the loop ([break]). *)
Fixpoint scanLoop (n : nat) (i : Z) (imgs : list image.Image) (index : Z)
    (firstHash : Z) (p : ImageSet) : option (bool * Z * ImageSet) :=
  match n with
  | O => Some (false, firstHash, p)
  | S n' =>
      img_i ← imgs !! Z.to_nat i;
      let hash := Hash img_i in
      let firstHash := if decide (i = 0) then hash else firstHash in
      match protoImages p !! hash with
      | Some _ =>
          os ← store (orientations p) index (u8 i);
          hs ← store (images p) index hash;
          Some (true, firstHash,
                mkImageSet (SourceImagePath p) (protoImages p) hs os (stride p))
      | None => scanLoop n' (i + 1) imgs index firstHash p
      end
  end.

Definition AddImage (p : ImageSet) (img : image.Image) (x y : Z) : option ImageSet :=
  let index := y * stride p + x in
  match scanLoop 8 0 (variants img) index 0 p with
  | None => None
  | Some (true, _, p) => Some p
  | Some (false, firstHash, p) =>
      let protos := <[firstHash := img]> (protoImages p) in
      hs ← store (images p) index firstHash;
      os ← store (orientations p) index (u8 0);
      Some (mkImageSet (SourceImagePath p) protos hs os (stride p))
  end.

Definition GetX (p : ImageSet) (index : Z) : option Z :=
  if decide (stride p = 0) then None else Some (Z.rem index (stride p)).

Definition GetY (p : ImageSet) (index : Z) : option Z :=
  if decide (stride p = 0) then None else Some (Z.quot index (stride p)).

Definition GetOrientationLabel (orientation : Z) : string :=
  let v := Z.land orientation 7 in
  if decide (v = 0) then "Standard"
  else if decide (v = 1) then "Rotated 90 degrees"
  else if decide (v = 2) then "Rotated 180 degrees"
  else if decide (v = 3) then "Rotated 270 degrees"
  else if decide (v = 4) then "Mirrored"
  else if decide (v = 5) then "Mirrored + Rotated 90 degrees"
  else if decide (v = 6) then "Mirrored + Rotated 180 degrees"
  else if decide (v = 7) then "Mirrored + Rotated 270 degrees"
  else "".

(** ** The collaborators of [Process]: file system and diagnostics

    What [os.Open] followed by [png.Decode] gives for a path, whether the
    directory and the files can be created, what was written to the
    standard error stream and which artifacts were created.  Text layout
    (the HTML of the report, the hexadecimal file names, the scaled size of
    the source picture tag, computed in floating point) is left out: a
    report is kept as the values it prints. *)

Inductive LoadOutcome : Type :=
| OpenNotExist
| OpenPermission
| OpenFailed
| DecodeFailed
| Decoded (img : image.Image).

Inductive Diagnostic : Type :=
| SourceMissing (path : string)
| SourceUnreadable (path : string)
| SourceOpenError (path : string)
| SourceDecodeError
| MkdirError
| ReportCreateError.

Inductive Path : Type :=
| ImagesDir
| ImageFile (hash : Z)
| ReportFile.

Record Report : Type := mkReport {
  srcHeight : Z;
  srcWidth : Z;
  textureCells : Z;
  uniqueTextures : Z;
  rows : list (Z * Z * Z * string)
}.

Inductive Artifact : Type :=
| Directory
| ImagePng (hash : Z) (img : image.Image)
| ReportHtml (r : Report).

Record World : Type := mkWorld {
  files : string → LoadOutcome;
  canCreate : Path → bool;
  stderr : list Diagnostic;
  written : list Artifact
}.

Definition warn (d : Diagnostic) (w : World) : World :=
  mkWorld (files w) (canCreate w) (stderr w ++ [d]) (written w).

Definition emit (a : Artifact) (w : World) : World :=
  mkWorld (files w) (canCreate w) (stderr w) (written w ++ [a]).

Definition getSourceImage (p : ImageSet) (w : World) : option image.Image * World :=
  match files w (SourceImagePath p) with
  | OpenNotExist => (None, warn (SourceMissing (SourceImagePath p)) w)
  | OpenPermission => (None, warn (SourceUnreadable (SourceImagePath p)) w)
  | OpenFailed => (None, warn (SourceOpenError (SourceImagePath p)) w)
  | DecodeFailed => (None, warn SourceDecodeError w)
  | Decoded img => (Some img, w)
  end.

(** The prototypes are visited in the order of [map_to_list]; Go leaves
    the order of a [range] over a map open. *)
Definition WriteImageFiles (p : ImageSet) (w : World) : World :=
  let w := if canCreate w ImagesDir then emit Directory w else warn MkdirError w in
  fold_left
    (λ w kv, if canCreate w (ImageFile kv.1) then emit (ImagePng kv.1 kv.2) w else w)
    (map_to_list (protoImages p)) w.

(** The table rows of the report, from cell [i] on. *)
Fixpoint reportRows (p : ImageSet) (i : Z) (vs : list Z)
  : option (list (Z * Z * Z * string)) :=
  match vs with
  | [] => Some []
  | v :: vs' =>
      x ← GetX p i;
      y ← GetY p i;
      o ← orientations p !! Z.to_nat i;
      rest ← reportRows p (i + 1) vs';
      Some ((x, y, v, GetOrientationLabel o) :: rest)
  end.

Definition WriteReport (p : ImageSet) (bounds : image.Rectangle) (w : World)
  : option World :=
  if canCreate w ReportFile then
    let h := image.Y (image.Max bounds) - image.Y (image.Min bounds) in
    let w' := image.X (image.Max bounds) - image.X (image.Min bounds) in
    rs ← reportRows p 0 (images p);
    Some (emit (ReportHtml (mkReport h w' (Z.of_nat (length (images p)))
                              (Z.of_nat (size (protoImages p))) rs)) w)
  else Some (warn ReportCreateError w).

(** The two nested loops of [Process]. *)
Definition extractLoop (sourceImage : image.Image) (numX numY : Z) (p : ImageSet)
  : option ImageSet :=
  for_rangeM 0 numY
    (λ y p,
       for_rangeM 0 numX
         (λ x p,
            let bounds := image.Rect (x * 128) (y * 128) ((x + 1) * 128) ((y + 1) * 128) in
            AddImage p (imaging.Crop sourceImage bounds) x y)
         p)
    p.

Definition Process (p : ImageSet) (w : World) : option (ImageSet * World) :=
  let '(sourceImage, w) := getSourceImage p w in
  match sourceImage with
  | None => Some (p, w)
  | Some sourceImage =>
      let bounds := image.Bounds sourceImage in
      let '(numX, numY) := calculateNumberImages bounds in
      hs ← make 0 (numX * numY);
      os ← make 0 (numX * numY);
      let p := mkImageSet (SourceImagePath p) (protoImages p) hs os numX in
      p ← extractLoop sourceImage numX numY p;
      let w := WriteImageFiles p w in
      w ← WriteReport p bounds w;
      Some (p, w)
  end.

(** ** Vocabulary of the properties *)

(** The label table of the report, in the order of the orientation codes. *)
Definition orientationLabels : list string :=
  [ "Standard"; "Rotated 90 degrees"; "Rotated 180 degrees"; "Rotated 270 degrees";
    "Mirrored"; "Mirrored + Rotated 90 degrees"; "Mirrored + Rotated 180 degrees";
    "Mirrored + Rotated 270 degrees" ].

(** The tile of grid cell [(x, y)], as [Process] cuts it. *)
Definition cellTile (sourceImage : image.Image) (x y : Z) : image.Image :=
  imaging.Crop sourceImage
    (image.Rect (x * 128) (y * 128) ((x + 1) * 128) ((y + 1) * 128)).

(** The grid cells in the order in which [Process] visits them: [y] outer,
    [x] inner. *)
Definition cellOrder (numX numY : Z) : list (Z * Z) :=
  y ← seqZ 0 numY; (λ x, (x, y)) <$> seqZ 0 numX.

(** [AddImage] on the tiles of a list of cells, one after the other. *)
Fixpoint runCells (sourceImage : image.Image) (cells : list (Z * Z)) (p : ImageSet)
  : option ImageSet :=
  match cells with
  | [] => Some p
  | (x, y) :: cells' =>
      match AddImage p (cellTile sourceImage x y) x y with
      | Some p' => runCells sourceImage cells' p'
      | None => None
      end
  end.

(** The state in which [Process] enters its loops. *)
Definition gridState (p : ImageSet) (numX numY : Z) : ImageSet :=
  mkImageSet (SourceImagePath p) (protoImages p)
    (replicate (Z.to_nat (numX * numY)) 0) (replicate (Z.to_nat (numX * numY)) 0) numX.

(** The fingerprints of the eight variants, in index order. *)
Definition fingerprints (img : image.Image) : list Z := Hash <$> variants img.

(** Every key of the registry is the fingerprint of the picture stored
    under it. *)
Definition keyed (m : gmap Z image.Image) : Prop :=
  ∀ k v, m !! k = Some v → k = Hash v.

(** A picture as [imaging] returns it: well-formed bounds with the corner
    at the origin. *)
Definition atOrigin (img : image.Image) : Prop :=
  image.Min (image.Bounds img) = image.mkPoint 0 0 ∧ image.wf img.

(** The inverse of orientation [i], following the spec's table of the
    eight orientations: a rotation is undone by the opposite rotation, the
    mirror by itself, and a mirror followed by a rotation by the opposite
    rotation followed by the mirror. *)
Definition inverseOrientation (i : nat) (img : image.Image) : image.Image :=
  match i with
  | 0%nat => img
  | 1%nat => imaging.Rotate270 img
  | 2%nat => imaging.Rotate180 img
  | 3%nat => imaging.Rotate90 img
  | 4%nat => imaging.FlipH img
  | 5%nat => imaging.FlipH (imaging.Rotate270 img)
  | 6%nat => imaging.FlipH (imaging.Rotate180 img)
  | 7%nat => imaging.FlipH (imaging.Rotate90 img)
  | _ => img
  end.

(** The step of section 4.4 in the spec's words: the first variant, in index
    order, whose fingerprint is a key of the registry decides the cell; when
    there is none, the tile itself becomes a prototype under its own
    fingerprint, with orientation 0. *)
Definition resolveCell (p : ImageSet) (img : image.Image) (x y : Z) : option ImageSet :=
  let cellIndex := y * stride p + x in
  match list_find (λ h, is_Some (protoImages p !! h)) (fingerprints img) with
  | Some (i, matched) =>
      os ← store (orientations p) cellIndex (Z.of_nat i);
      hs ← store (images p) cellIndex matched;
      Some (mkImageSet (SourceImagePath p) (protoImages p) hs os (stride p))
  | None =>
      hs ← store (images p) cellIndex (Hash img);
      os ← store (orientations p) cellIndex 0;
      Some (mkImageSet (SourceImagePath p) (<[Hash img := img]> (protoImages p))
              hs os (stride p))
  end.

(** The value of [firstHash] when the scan loop of [AddImage] ends, having
    started at index [i] with [n] iterations to go. *)
Definition firstHashAfter (n i : nat) (imgs : list image.Image) (fh : Z) : Z :=
  match n, i, imgs with
  | S _, O, img0 :: _ => Hash img0
  | _, _, _ => fh
  end.

(** ** Small concrete inputs *)

(** A picture of [w] by [h] pixels at the origin, all of one colour. *)
Definition plain (w h : Z) (c : color.NRGBA) : image.Image :=
  imaging.NewNRGBA w h (λ _ _, c).

Definition grey : color.NRGBA := color.mkNRGBA 10 20 30 255.

Definition ink : color.NRGBA := color.mkNRGBA 200 100 50 255.

(** A one-cell set before its only cell is resolved. *)
Definition oneCell (protos : gmap Z image.Image) : ImageSet :=
  mkImageSet "tiles.png" protos [0] [0] 1.

(** A world whose only readable picture is [img], stored at "tiles.png",
    and in which every directory and file can be created. *)
Definition worldWith (img : image.Image) : World :=
  mkWorld (λ path, if decide (path = "tiles.png") then Decoded img else OpenNotExist)
          (λ _, true) [] [].

(** A world in which the source cannot be opened or decoded. *)
Definition worldFailing (o : LoadOutcome) : World :=
  mkWorld (λ _, o) (λ _, true) [] [].

(** The cells of [cells] are filled: each holds a fingerprint that is a key
    of the registry. *)
Definition filled (p : ImageSet) (cells : list (Z * Z)) : Prop :=
  ∀ x y, (x, y) ∈ cells →
    ∃ h, images p !! Z.to_nat (y * stride p + x) = Some h
         ∧ is_Some (protoImages p !! h).

(** ** Byte sequences of the pixel hasher *)

(** The four bytes, most significant first, that [convertUint32ToBytes]
    derives from a value. *)
Definition be32 (value : Z) : list Z :=
  [ u8 (Z.land (Z.shiftr value 24) 255); u8 (Z.land (Z.shiftr value 16) 255);
    u8 (Z.land (Z.shiftr value 8) 255); u8 (Z.land value 255) ].

(** The colours of a picture in row-major order. *)
Definition pixels (img : image.Image) : list color.NRGBA :=
  let rect := image.Bounds img in
  y ← seqZ (image.Y (image.Min rect)) (image.Dy rect);
  (λ x, image.At img x y) <$> seqZ (image.X (image.Min rect)) (image.Dx rect).

(** The byte sequence of the spec (sections 3 and 4.1): for every pixel in
    row-major order its four channels R, G, B, A, each as four bytes, most
    significant first. *)
Definition channelBytes (c : color.NRGBA) : list Z :=
  let '(r, g, b, a) := color.RGBA c in be32 r ++ be32 g ++ be32 b ++ be32 a.

Definition serialize (img : image.Image) : list Z :=
  c ← pixels img; channelBytes c.

(** The byte sequence that the loop of [Hash] leaves in its buffer: twelve
    bytes for the R, G, B channels of every pixel, the alpha channel of the
    last pixel only, and zeros up to the size of the buffer. *)
Definition colourBytes (c : color.NRGBA) : list Z :=
  let '(r, g, b, _) := color.RGBA c in be32 r ++ be32 g ++ be32 b.

Definition alphaBytes (c : color.NRGBA) : list Z :=
  let '(_, _, _, a) := color.RGBA c in be32 a.

Definition packed (img : image.Image) : list Z :=
  match last (pixels img) with
  | None => []
  | Some c =>
      (c' ← pixels img; colourBytes c') ++ alphaBytes c
        ++ replicate (4 * (length (pixels img) - 1)) 0
  end.

(** The body of the inner loop of [Hash] as a function of the colour read. *)
Definition writePixel (st : list Z * Z) (c : color.NRGBA) : list Z * Z :=
  let '(data, pos) := st in
  let '(r, g, b, a) := color.RGBA c in
  let data := convertUint32ToBytes r data pos in
  let pos := pos + 4 in
  let data := convertUint32ToBytes g data pos in
  let pos := pos + 4 in
  let data := convertUint32ToBytes b data pos in
  let pos := pos + 4 in
  let data := convertUint32ToBytes a data pos in
  (data, pos).

(** The alpha bytes that end the written part of the buffer: those of the
    last pixel written, or what was there before. *)
Definition lastAlpha (before : list Z) (cs : list color.NRGBA) : list Z :=
  match last cs with
  | Some c => alphaBytes c
  | None => before
  end.

(** ** Two tiles that differ in one alpha value

    128 by 128 pixels of opaque black, and the same tile with its top-left
    pixel made fully transparent. *)

Definition opaqueTile : image.Image :=
  imaging.NewNRGBA 128 128 (λ _ _, color.mkNRGBA 0 0 0 255).

Definition piercedTile : image.Image :=
  imaging.NewNRGBA 128 128
    (λ x y, if decide (x = 0 ∧ y = 0) then color.mkNRGBA 0 0 0 0
            else color.mkNRGBA 0 0 0 255).

(** ** A quick evaluation of FNV-1a on buffers with long runs of zeros

    A zero byte leaves the hash unchanged under the exclusive or, so a run
    of [k] zero bytes multiplies the hash by the [k]-th power of the prime. *)

Fixpoint primePower (k : positive) : Z :=
  match k with
  | xH => u64 fnv.prime64
  | xO k' => let r := primePower k' in u64 (r * r)
  | xI k' => let r := primePower k' in u64 (u64 (r * r) * fnv.prime64)
  end.

Definition skipZeros (hash : Z) (k : N) : Z :=
  match k with
  | N0 => hash
  | Npos k' => u64 (hash * primePower k')
  end.

(** The state of the quick evaluation is a hash and the number of zero
    bytes read since its last update. *)
Fixpoint quickScan (hash : Z) (zeros : N) (data : list Z) : Z * N :=
  match data with
  | [] => (hash, zeros)
  | c :: data' =>
      if decide (c = 0) then quickScan hash (N.succ zeros) data'
      else quickScan (fnv.step (skipZeros hash zeros) c) 0 data'
  end.

Definition isClear (c : color.NRGBA) : bool :=
  (color.R c =? 0) && (color.G c =? 0) && (color.B c =? 0) && (color.A c =? 0).

(** The colour bytes of a list of pixels; a pixel whose four channels are
    zero counts as twelve zero bytes. *)
Fixpoint quickPixels (hash : Z) (zeros : N) (cs : list color.NRGBA) : Z * N :=
  match cs with
  | [] => (hash, zeros)
  | c :: cs' =>
      if isClear c then quickPixels hash (zeros + 12) cs'
      else let '(hash, zeros) := quickScan hash zeros (colourBytes c) in
           quickPixels hash zeros cs'
  end.

(** The fingerprint of the buffer [packed img]. *)
Definition quickHash (img : image.Image) : Z :=
  match last (pixels img) with
  | None => fnv.offset64
  | Some c =>
      let '(hash, zeros) := quickPixels fnv.offset64 0 (pixels img) in
      let '(hash, zeros) := quickScan hash zeros (alphaBytes c) in
      skipZeros hash (zeros + N.of_nat (4 * (length (pixels img) - 1)))
  end.

(** ** The scenario of four quadrants

    A tile that is transparent black except for one opaque pixel of colour
    [c] in its top-left corner, and a source of 256 by 256 pixels whose
    top-left quadrant is such a tile in red, whose top-right quadrant is that
    tile turned by [imaging.Rotate90], and whose bottom quadrants are such
    tiles in green and in blue. *)

Definition cornerTile (c : color.NRGBA) : image.Image :=
  imaging.NewNRGBA 128 128 (λ x y, if decide (x = 0 ∧ y = 0) then c else color.zero).

Definition red : color.NRGBA := color.mkNRGBA 255 0 0 255.
Definition green : color.NRGBA := color.mkNRGBA 0 255 0 255.
Definition blue : color.NRGBA := color.mkNRGBA 0 0 255 255.

(** A source of 256 by 256 pixels from its four quadrants. *)
Definition fourQuadrants (tl tr bl br : image.Image) : image.Image :=
  image.mkImage (image.Rect 0 0 256 256)
    (λ x y,
       if decide (x < 128) then
         if decide (y < 128) then image.At tl x y else image.At bl x (y - 128)
       else
         if decide (y < 128) then image.At tr (x - 128) y
         else image.At br (x - 128) (y - 128)).

Definition quadrantSource : image.Image :=
  fourQuadrants (cornerTile red) (imaging.Rotate90 (cornerTile red))
    (cornerTile green) (cornerTile blue).

(** The same source with the top-right quadrant turned the other way, by
    [imaging.Rotate270]. *)
Definition clockwiseSource : image.Image :=
  fourQuadrants (cornerTile red) (imaging.Rotate270 (cornerTile red))
    (cornerTile green) (cornerTile blue).

(** The premise of the scenario in the spec's words: a source of 256 by 256
    pixels whose top-right quadrant is the top-left quadrant rotated by 90
    degrees (the rotation of variant 1, [imaging.Rotate90]) and whose bottom
    quadrants are unique: no orientation of one of them is another
    quadrant. *)
Definition scenarioPremise (src : image.Image) : Prop :=
  image.Bounds src = image.Rect 0 0 256 256
  ∧ image.same (cellTile src 1 0) (imaging.Rotate90 (cellTile src 0 0))
  ∧ (∀ v, v ∈ variants (cellTile src 0 1) →
          ¬ image.same v (cellTile src 0 0) ∧ ¬ image.same v (cellTile src 1 0))
  ∧ (∀ v, v ∈ variants (cellTile src 1 1) →
          ¬ image.same v (cellTile src 0 0) ∧ ¬ image.same v (cellTile src 1 0)
          ∧ ¬ image.same v (cellTile src 0 1)).

(** The outcome of the scenario as the spec states it, on a fresh image
    set. *)
Definition scenarioClaim (src : image.Image) : Prop :=
  scenarioPremise src →
  ∃ p' w',
    Process (NewImageSet "tiles.png") (worldWith src) = Some (p', w')
    ∧ length (images p') = 4%nat
    ∧ size (protoImages p') = 3%nat
    ∧ orientations p' = [0; 1; 0; 0].

(** No fingerprint met in the scenario collides, where [i] is the index at
    which the top-right tile is expected to match: the first [i] variants
    of the top-right tile do not hash to the fingerprint of the top-left
    tile, no variant of the bottom-left tile does, and no variant of the
    bottom-right tile hashes to the fingerprint of the top-left or of the
    bottom-left tile. *)
Definition scenarioDistinct (i : nat) (src : image.Image) : Prop :=
  (∀ h, h ∈ take i (fingerprints (cellTile src 1 0)) → h ≠ Hash (cellTile src 0 0))
  ∧ (∀ h, h ∈ fingerprints (cellTile src 0 1) → h ≠ Hash (cellTile src 0 0))
  ∧ (∀ h, h ∈ fingerprints (cellTile src 1 1) →
          h ≠ Hash (cellTile src 0 0) ∧ h ≠ Hash (cellTile src 0 1)).

(** The same, decided by evaluation. *)
Definition distinctb (hs : list Z) (h0 : Z) : bool :=
  forallb (λ h, negb (h =? h0)) hs.

Definition scenarioDistinctb (i : nat) (src : image.Image) : bool :=
  let hTL := quickHash (cellTile src 0 0) in
  let hBL := quickHash (cellTile src 0 1) in
  let fBR := quickHash <$> variants (cellTile src 1 1) in
  distinctb (quickHash <$> take i (variants (cellTile src 1 0))) hTL
  && distinctb (quickHash <$> variants (cellTile src 0 1)) hTL
  && distinctb fBR hTL && distinctb fBR hBL.

(** Pixel-for-pixel equality, decided by evaluation. *)
Definition colourEqb (c d : color.NRGBA) : bool :=
  (color.R c =? color.R d) && (color.G c =? color.G d)
  && (color.B c =? color.B d) && (color.A c =? color.A d).

Definition rectEqb (r s : image.Rectangle) : bool :=
  (image.X (image.Min r) =? image.X (image.Min s))
  && (image.Y (image.Min r) =? image.Y (image.Min s))
  && (image.X (image.Max r) =? image.X (image.Max s))
  && (image.Y (image.Max r) =? image.Y (image.Max s)).

Definition sameb (a b : image.Image) : bool :=
  rectEqb (image.Bounds a) (image.Bounds b)
  && forallb
       (λ y, forallb (λ x, colourEqb (image.At a x y) (image.At b x y))
               (seqZ (image.X (image.Min (image.Bounds a))) (image.Dx (image.Bounds a))))
       (seqZ (image.Y (image.Min (image.Bounds a))) (image.Dy (image.Bounds a))).

(** ** sc4texture.go

    [main] reads the file name from the flag [-in] (the empty string when
    the flag is absent) and runs [Process] on a fresh image set; [filename]
    is the value of the flag after [flag.Parse]. *)

Module sc4texture.

Definition main (filename : string) (w : World) : option (ImageSet * World) :=
  let imageSet := NewImageSet filename in
  Process imageSet w.

End sc4texture.

(** The picture files that [WriteImageFiles] creates for a list of registry
    entries, in a world [w]. *)
Definition pngFiles (w : World) (entries : list (Z * image.Image)) : list Artifact :=
  omap (λ kv, if canCreate w (ImageFile kv.1) then Some (ImagePng kv.1 kv.2) else None)
       entries.

(** The index of the variant that undoes variant [j]: the rotations by one
    and by three quarter turns undo each other; the half turn, the mirror
    and the mirror followed by a rotation undo themselves. *)
Definition inverseIndex (j : nat) : nat :=
  match j with
  | 1%nat => 3%nat
  | 3%nat => 1%nat
  | _ => j
  end.

(** A picture of two pixels side by side, of different colours. *)
Definition twoTone : image.Image :=
  imaging.NewNRGBA 2 1 (λ x _, if decide (x = 0) then grey else ink).

(** The value whose bytes, most significant first, are [bs]. *)
Definition beValue (bs : list Z) : Z := fold_left (λ acc b, acc * 256 + b) bs 0.

(** ** The second program of the repository: the picture inspector

    [main] opens the file named by the flag [-in], decodes it as a PNG
    picture and prints the bounds of the picture.  After a failed
    [os.Open] it prints a message and goes on with a nil file, on which
    [png.Decode] fails as well; after a failed decode it prints a message
    and goes on with a nil picture, on which the call [image.Bounds()]
    panics.  The result is what was printed and whether [main] returned
    ([true]) or panicked ([false]); the text of the errors is left out. *)

Module inspect.

Inductive Output : Type :=
| FailedToOpen (filename : string)
| FailedToDecode
| ImageDetails (bounds : image.Rectangle).

Definition main (filename : string) (files : string → LoadOutcome)
  : list Output * bool :=
  let '(file, out) :=
    match files filename with
    | OpenNotExist | OpenPermission | OpenFailed => (false, [FailedToOpen filename])
    | DecodeFailed | Decoded _ => (true, [])
    end in
  let '(image, out) :=
    match file, files filename with
    | true, Decoded img => (Some img, out)
    | _, _ => (None, out ++ [FailedToDecode])
    end in
  match image with
  | Some img => (out ++ [ImageDetails (image.Bounds img)], true)
  | None => (out, false)
  end.

End inspect.

(** The tiles of [cells] are resolved by a registry: some variant of each
    has a fingerprint that is a key. *)
Definition resolved (src : image.Image) (protos : gmap Z image.Image)
    (cells : list (Z * Z)) : Prop :=
  ∀ x y, (x, y) ∈ cells →
    ∃ h, h ∈ fingerprints (cellTile src x y) ∧ is_Some (protos !! h).

(** The cells of [cells] hold their records: the slot of a cell has an
    orientation code between 0 and 7 and the fingerprint of the variant of
    the tile of that cell at this code, and the fingerprint is a key of the
    registry. *)
Definition recorded (src : image.Image) (p : ImageSet) (cells : list (Z * Z)) : Prop :=
  ∀ x y, (x, y) ∈ cells →
    ∃ h o,
      images p !! Z.to_nat (y * stride p + x) = Some h
      ∧ orientations p !! Z.to_nat (y * stride p + x) = Some o
      ∧ 0 ≤ o ≤ 7
      ∧ fingerprints (cellTile src x y) !! Z.to_nat o = Some h
      ∧ is_Some (protoImages p !! h).

(** * Properties *)

(** ** The label table *)

Lemma land_7_range (b : Z) : 0 ≤ Z.land b 7 < 8 ∧ Z.land b 7 = b mod 8.
Proof.
  change 7 with (Z.ones 3). rewrite Z.land_ones by lia.
  split; [apply Z.mod_pos_bound; lia | reflexivity].
Qed.

(** C10: [GetOrientationLabel] returns one of the eight labels of the
    table, never the empty string of the fallback branch, on every input
    (the 256 byte values included), and depends on its argument only
    through its residue modulo 8. *)
Theorem GetOrientationLabel_total (b : Z) :
  GetOrientationLabel b ∈ orientationLabels
  ∧ GetOrientationLabel b ≠ ""
  ∧ GetOrientationLabel b = GetOrientationLabel (b mod 8).
Proof.
  assert (Hcases : ∀ v, 0 ≤ v < 8 →
            v = 0 ∨ v = 1 ∨ v = 2 ∨ v = 3 ∨ v = 4 ∨ v = 5 ∨ v = 6 ∨ v = 7) by lia.
  destruct (land_7_range b) as [Hr Hm].
  split; [|split].
  - unfold GetOrientationLabel, orientationLabels.
    destruct (Hcases _ Hr) as [H|[H|[H|[H|[H|[H|[H|H]]]]]]]; rewrite H; simpl;
      apply list_elem_of_In; simpl; tauto.
  - unfold GetOrientationLabel.
    destruct (Hcases _ Hr) as [H|[H|[H|[H|[H|[H|[H|H]]]]]]]; rewrite H; simpl;
      discriminate.
  - unfold GetOrientationLabel.
    destruct (land_7_range (b mod 8)) as [_ Hm'].
    rewrite Hm', Hm. rewrite Z.mod_mod by lia. reflexivity.
Qed.

(** ** The scan loop of [AddImage] *)

Lemma store_Some {T : Type} (s : list T) (i : Z) (v : T) :
  0 ≤ i < Z.of_nat (length s) → store s i v = Some (<[Z.to_nat i := v]> s).
Proof. intros H. unfold store. rewrite decide_True; done. Qed.

Lemma store_inv {T : Type} (s s' : list T) (i : Z) (v : T) :
  store s i v = Some s' →
  0 ≤ i < Z.of_nat (length s) ∧ s' = <[Z.to_nat i := v]> s.
Proof. unfold store. case_decide; [|done]. intros [= <-]. done. Qed.

Lemma u8_small (v : Z) : 0 ≤ v < 256 → u8 v = v.
Proof. intros H. unfold u8. apply Z.mod_small. lia. Qed.

Lemma scanLoop_list_find (n i : nat) imgs index fh p :
  length imgs = (i + n)%nat →
  scanLoop n (Z.of_nat i) imgs index fh p =
    match list_find (λ h, is_Some (protoImages p !! h)) (drop i (Hash <$> imgs)) with
    | Some (j, h) =>
        os ← store (orientations p) index (u8 (Z.of_nat (i + j)));
        hs ← store (images p) index h;
        Some (true, firstHashAfter n i imgs fh,
              mkImageSet (SourceImagePath p) (protoImages p) hs os (stride p))
    | None => Some (false, firstHashAfter n i imgs fh, p)
    end.
Proof.
  revert i fh. induction n as [|n IH]; intros i fh Hlen.
  - rewrite drop_ge by (rewrite length_fmap; lia). simpl.
    reflexivity.
  - destruct (lookup_lt_is_Some_2 imgs i) as [img_i Hi]; [lia|].
    rewrite (drop_S (Hash <$> imgs) (Hash img_i) i)
      by (rewrite list_lookup_fmap, Hi; reflexivity).
    cbn [scanLoop list_find]. rewrite Nat2Z.id, Hi. cbn [mbind option_bind].
    destruct (protoImages p !! Hash img_i) as [v|] eqn:Hv.
    + destruct (decide (is_Some (Some v))) as [_|Hn]; [|destruct Hn; eauto].
      rewrite Nat.add_0_r.
      assert (Hfh : (if decide (Z.of_nat i = 0) then Hash img_i else fh)
                    = firstHashAfter (S n) i imgs fh).
      { destruct (decide (Z.of_nat i = 0)) as [H0|H0]; destruct i; try lia.
        - destruct imgs as [|img0 imgs']; [simpl in Hlen; lia|].
          simpl in Hi. injection Hi as ->. reflexivity.
        - reflexivity. }
      rewrite Hfh. reflexivity.
    + destruct (decide (is_Some (@None image.Image))) as [[? ?]|_]; [discriminate|].
      replace (Z.of_nat i + 1) with (Z.of_nat (S i)) by lia.
      rewrite IH by lia.
      assert (Hfh : firstHashAfter n (S i) imgs
                      (if decide (Z.of_nat i = 0) then Hash img_i else fh)
                    = firstHashAfter (S n) i imgs fh).
      { destruct (decide (Z.of_nat i = 0)) as [H0|H0]; destruct i; try lia.
        - destruct imgs as [|img0 imgs']; [simpl in Hlen; lia|].
          simpl in Hi. injection Hi as ->. destruct n; reflexivity.
        - destruct n; reflexivity. }
      rewrite Hfh.
      destruct (list_find _ (drop (S i) (Hash <$> imgs))) as [[j h]|]; simpl.
      * replace (i + S j)%nat with (S i + j)%nat by lia. reflexivity.
      * reflexivity.
Qed.

Lemma fingerprints_length img : length (fingerprints img) = 8%nat.
Proof. reflexivity. Qed.

Lemma list_find_fingerprints_lt (P : Z → Prop) `{∀ h, Decision (P h)} img i h :
  list_find P (fingerprints img) = Some (i, h) → (i < 8)%nat.
Proof.
  intros [Hi _]%list_find_Some. apply lookup_lt_Some in Hi.
  rewrite fingerprints_length in Hi. done.
Qed.

(** The Go loop with its two flags computes the step of section 4.4. *)
Lemma AddImage_resolveCell p img x y : AddImage p img x y = resolveCell p img x y.
Proof.
  unfold AddImage, resolveCell.
  rewrite (scanLoop_list_find 8 0) by reflexivity.
  rewrite drop_0. fold (fingerprints img).
  destruct (list_find _ (fingerprints img)) as [[i h]|] eqn:Hfind.
  - apply list_find_fingerprints_lt in Hfind as Hi.
    rewrite Nat.add_0_l, u8_small by lia.
    destruct (store (orientations p) _ _) as [os|]; [|reflexivity].
    destruct (store (images p) _ _) as [hs|]; reflexivity.
  - reflexivity.
Qed.

Lemma not_is_Some_None {T : Type} (o : option T) : ¬ is_Some o ↔ o = None.
Proof. rewrite eq_None_not_Some. done. Qed.

(** What a successful call of [AddImage] has done. *)
Lemma AddImage_inv p img x y p' :
  AddImage p img x y = Some p' →
  let index := y * stride p + x in
  SourceImagePath p' = SourceImagePath p ∧ stride p' = stride p
  ∧ 0 ≤ index < Z.of_nat (length (images p))
  ∧ 0 ≤ index < Z.of_nat (length (orientations p))
  ∧ ((∃ (i : nat) h,
        fingerprints img !! i = Some h ∧ is_Some (protoImages p !! h) ∧ (i < 8)%nat
        ∧ protoImages p' = protoImages p
        ∧ images p' = <[Z.to_nat index := h]> (images p)
        ∧ orientations p' = <[Z.to_nat index := Z.of_nat i]> (orientations p))
     ∨ (protoImages p !! Hash img = None
        ∧ protoImages p' = <[Hash img := img]> (protoImages p)
        ∧ images p' = <[Z.to_nat index := Hash img]> (images p)
        ∧ orientations p' = <[Z.to_nat index := 0]> (orientations p))).
Proof.
  rewrite AddImage_resolveCell. unfold resolveCell. intros H. cbv zeta.
  set (index := y * stride p + x) in *.
  destruct (list_find _ (fingerprints img)) as [[i h]|] eqn:Hfind.
  - destruct (store (orientations p) index _) as [os|] eqn:Hos; [|done].
    destruct (store (images p) index h) as [hs|] eqn:Hhs; [|done].
    simpl in H. injection H as <-. simpl.
    apply store_inv in Hos as [Hio ->]. apply store_inv in Hhs as [Hih ->].
    apply list_find_fingerprints_lt in Hfind as Hi8.
    apply list_find_Some in Hfind as (Hi & HP & _).
    do 4 (split; [done|]). left. exists i, h. done.
  - destruct (store (images p) index _) as [hs|] eqn:Hhs; [|done].
    destruct (store (orientations p) index _) as [os|] eqn:Hos; [|done].
    simpl in H. injection H as <-. simpl.
    apply store_inv in Hos as [Hio ->]. apply store_inv in Hhs as [Hih ->].
    apply list_find_None in Hfind.
    do 4 (split; [done|]). right. split; [|done].
    apply not_is_Some_None.
    apply (proj1 (Forall_lookup _ _) Hfind 0%nat (Hash img)). reflexivity.
Qed.

(** The two outcomes of a call inside the arrays. *)
Lemma AddImage_hit p img x y (i : nat) h :
  0 ≤ y * stride p + x < Z.of_nat (length (images p)) →
  0 ≤ y * stride p + x < Z.of_nat (length (orientations p)) →
  fingerprints img !! i = Some h →
  is_Some (protoImages p !! h) →
  (∀ (j : nat) h', (j < i)%nat → fingerprints img !! j = Some h' →
                   protoImages p !! h' = None) →
  AddImage p img x y =
    Some (mkImageSet (SourceImagePath p) (protoImages p)
            (<[Z.to_nat (y * stride p + x) := h]> (images p))
            (<[Z.to_nat (y * stride p + x) := Z.of_nat i]> (orientations p)) (stride p)).
Proof.
  intros Hh Ho Hi HP Hfirst. rewrite AddImage_resolveCell. unfold resolveCell.
  assert (Hfind : list_find (λ h, is_Some (protoImages p !! h)) (fingerprints img)
                  = Some (i, h)).
  { apply list_find_Some. repeat split; try done.
    intros j h' Hj Hlt. apply not_is_Some_None. eauto. }
  rewrite Hfind, !store_Some by done. reflexivity.
Qed.

Lemma AddImage_miss p img x y :
  0 ≤ y * stride p + x < Z.of_nat (length (images p)) →
  0 ≤ y * stride p + x < Z.of_nat (length (orientations p)) →
  (∀ h, h ∈ fingerprints img → protoImages p !! h = None) →
  AddImage p img x y =
    Some (mkImageSet (SourceImagePath p) (<[Hash img := img]> (protoImages p))
            (<[Z.to_nat (y * stride p + x) := Hash img]> (images p))
            (<[Z.to_nat (y * stride p + x) := 0]> (orientations p)) (stride p)).
Proof.
  intros Hh Ho Hnone. rewrite AddImage_resolveCell. unfold resolveCell.
  assert (Hfind : list_find (λ h, is_Some (protoImages p !! h)) (fingerprints img)
                  = None).
  { apply list_find_None, Forall_forall. intros h Hin.
    apply not_is_Some_None. eauto. }
  rewrite Hfind, !store_Some by done. reflexivity.
Qed.



(** ** The registry only grows *)

(** C6: a call of [AddImage] keeps every binding of the registry: each key
    present before the call is present after it, with the same picture. *)
Theorem AddImage_registry_monotone p img x y p' :
  AddImage p img x y = Some p' →
  ∀ k v, protoImages p !! k = Some v → protoImages p' !! k = Some v.
Proof.
  intros H k v Hk.
  destruct (AddImage_inv _ _ _ _ _ H) as (_ & _ & _ & _ & [Hhit | Hnew]).
  - destruct Hhit as (i & h & _ & _ & _ & -> & _). done.
  - destruct Hnew as (Hfresh & -> & _).
    rewrite lookup_insert_ne; [done|]. intros <-. congruence.
Qed.

Lemma AddImage_registry_monotone_witness :
  protoImages
    (mkImageSet "tiles.png"
       (<[Hash (plain 1 1 ink) := plain 1 1 ink]>
          {[ Hash (plain 1 1 grey) := plain 1 1 grey ]})
       [Hash (plain 1 1 ink)] [0] 1)
    !! Hash (plain 1 1 grey) = Some (plain 1 1 grey).
Proof.
  apply (AddImage_registry_monotone
           (oneCell {[ Hash (plain 1 1 grey) := plain 1 1 grey ]}) (plain 1 1 ink) 0 0).
  - rewrite AddImage_resolveCell. vm_compute. reflexivity.
  - apply lookup_singleton_eq.
Defined.

Lemma AddImage_registry_subseteq p img x y p' :
  AddImage p img x y = Some p' → protoImages p ⊆ protoImages p'.
Proof.
  intros H. apply map_subseteq_spec. intros k v.
  destruct (AddImage_inv _ _ _ _ _ H) as (_ & _ & _ & _ & [Hhit | Hnew]).
  - destruct Hhit as (i & h & _ & _ & _ & -> & _). done.
  - destruct Hnew as (Hfresh & -> & _). intros Hk.
    rewrite lookup_insert_ne; [done|]. intros <-. congruence.
Qed.

(** ** The extraction pass as a sequence of calls *)

Lemma runCells_app src cells1 cells2 p :
  runCells src (cells1 ++ cells2) p = runCells src cells1 p ≫= runCells src cells2.
Proof.
  revert p. induction cells1 as [|[x y] cells1 IH]; intros p; simpl; [done|].
  destruct (AddImage p (cellTile src x y) x y); simpl; [apply IH|done].
Qed.

Lemma seqZ_of_nat_S (m : Z) (n : nat) :
  seqZ m (Z.of_nat (S n)) = m :: seqZ (m + 1) (Z.of_nat n).
Proof.
  rewrite seqZ_cons by lia. f_equal. f_equal; lia.
Qed.

Lemma seqZ_to_nat (m len : Z) : seqZ m (Z.of_nat (Z.to_nat len)) = seqZ m len.
Proof. unfold seqZ. rewrite Nat2Z.id. reflexivity. Qed.

Lemma rowLoop_runCells src (n : nat) (x0 y : Z) p :
  for_loopM n x0 (λ x p, AddImage p (cellTile src x y) x y) p
  = runCells src ((λ x, (x, y)) <$> seqZ x0 (Z.of_nat n)) p.
Proof.
  revert x0 p. induction n as [|n IH]; intros x0 p.
  - reflexivity.
  - rewrite seqZ_of_nat_S. cbn [for_loopM fmap list_fmap runCells].
    destruct (AddImage p (cellTile src x0 y) x0 y); [apply IH|done].
Qed.

Lemma gridLoop_runCells src numX (n : nat) (y0 : Z) p :
  for_loopM n y0
    (λ y p, for_rangeM 0 numX (λ x p, AddImage p (cellTile src x y) x y) p) p
  = runCells src (y ← seqZ y0 (Z.of_nat n); (λ x, (x, y)) <$> seqZ 0 numX) p.
Proof.
  revert y0 p. induction n as [|n IH]; intros y0 p.
  - reflexivity.
  - rewrite seqZ_of_nat_S. cbn [for_loopM mbind list_bind].
    rewrite runCells_app. unfold for_rangeM at 1.
    rewrite rowLoop_runCells, Z.sub_0_r, seqZ_to_nat.
    destruct (runCells src _ p); [apply IH|done].
Qed.

Lemma extractLoop_runCells src numX numY p :
  extractLoop src numX numY p = runCells src (cellOrder numX numY) p.
Proof.
  unfold cellOrder. rewrite <- (seqZ_to_nat 0 numY), <- gridLoop_runCells.
  unfold extractLoop, cellTile. unfold for_rangeM at 1. rewrite Z.sub_0_r.
  reflexivity.
Qed.

Lemma elem_of_cellOrder numX numY x y :
  (x, y) ∈ cellOrder numX numY ↔ 0 ≤ x < numX ∧ 0 ≤ y < numY.
Proof.
  unfold cellOrder. rewrite list_elem_of_bind. split.
  - intros (y' & Hx & Hy). apply list_elem_of_fmap in Hx as (x' & [= -> ->] & Hx).
    apply elem_of_seqZ in Hx. apply elem_of_seqZ in Hy. lia.
  - intros [Hx Hy]. exists y. split.
    + apply list_elem_of_fmap. exists x. split; [done|]. apply elem_of_seqZ. lia.
    + apply elem_of_seqZ. lia.
Qed.

Lemma AddImage_total p img x y :
  0 ≤ y * stride p + x < Z.of_nat (length (images p)) →
  length (orientations p) = length (images p) →
  ∃ p', AddImage p img x y = Some p'.
Proof.
  intros Hi Hlen. rewrite AddImage_resolveCell. unfold resolveCell.
  destruct (list_find _ _) as [[i h]|]; rewrite !store_Some by lia; eauto.
Qed.

Lemma AddImage_shape p img x y p' :
  AddImage p img x y = Some p' →
  SourceImagePath p' = SourceImagePath p ∧ stride p' = stride p
  ∧ length (images p') = length (images p)
  ∧ length (orientations p') = length (orientations p).
Proof.
  intros H. destruct (AddImage_inv _ _ _ _ _ H) as (Hpath & Hstride & _ & _ & Hcase).
  split; [done|]. split; [done|].
  destruct Hcase as [(i & h & _ & _ & _ & _ & -> & ->) | (_ & _ & -> & ->)];
    rewrite !length_insert; done.
Qed.

Lemma runCells_shape src cells p p' :
  runCells src cells p = Some p' →
  SourceImagePath p' = SourceImagePath p ∧ stride p' = stride p
  ∧ length (images p') = length (images p)
  ∧ length (orientations p') = length (orientations p).
Proof.
  revert p. induction cells as [|[x y] cells IH]; intros p; simpl.
  - intros [= ->]. done.
  - destruct (AddImage p (cellTile src x y) x y) as [p1|] eqn:H1; [|done].
    intros H. apply IH in H as (-> & -> & -> & ->). by apply AddImage_shape in H1.
Qed.

(** Inside the grid no call panics: the pass runs to its end. *)
Lemma runCells_total src cells p :
  (∀ x y, (x, y) ∈ cells → 0 ≤ y * stride p + x < Z.of_nat (length (images p))) →
  length (orientations p) = length (images p) →
  ∃ p', runCells src cells p = Some p'.
Proof.
  revert p. induction cells as [|[x y] cells IH]; intros p Hin Hlen; simpl.
  - eauto.
  - destruct (AddImage_total p (cellTile src x y) x y) as [p1 H1];
      [apply Hin; left | done |].
    rewrite H1. destruct (AddImage_shape _ _ _ _ _ H1) as (_ & Hs & Hi & Ho).
    apply IH.
    + intros x' y' H'. rewrite Hs, Hi. apply Hin. by right.
    + congruence.
Qed.

Lemma cell_index_bound numX numY x y :
  0 ≤ x < numX → 0 ≤ y < numY → 0 ≤ y * numX + x < numX * numY.
Proof. intros Hx Hy. nia. Qed.

Lemma gridState_cells_in_range p numX numY x y :
  (x, y) ∈ cellOrder numX numY →
  0 ≤ y * stride (gridState p numX numY) + x
    < Z.of_nat (length (images (gridState p numX numY))).
Proof.
  intros [Hx Hy]%elem_of_cellOrder. simpl. rewrite length_replicate.
  pose proof (cell_index_bound numX numY x y Hx Hy). lia.
Qed.

(** ** [Process] *)

Lemma make_Some {T : Type} (zero : T) (n : Z) :
  0 ≤ n → make zero n = Some (replicate (Z.to_nat n) zero).
Proof. intros H. unfold make. rewrite decide_True; done. Qed.

Lemma calculateNumberImages_div bounds :
  0 ≤ image.Dx bounds → 0 ≤ image.Dy bounds →
  calculateNumberImages bounds = (image.Dx bounds `div` 128, image.Dy bounds `div` 128).
Proof.
  intros Hx Hy. unfold calculateNumberImages, calculateStride, image.Dx, image.Dy in *.
  rewrite !Z.quot_div_nonneg by lia. reflexivity.
Qed.

Lemma reportRows_total p (i : nat) vs :
  (vs ≠ [] → stride p ≠ 0) →
  (i + length vs ≤ length (orientations p))%nat →
  ∃ rs, reportRows p (Z.of_nat i) vs = Some rs.
Proof.
  revert i. induction vs as [|v vs IH]; intros i Hs Hlen; simpl.
  - eauto.
  - assert (Hne : stride p ≠ 0) by (apply Hs; done).
    unfold GetX, GetY. rewrite !decide_False by done. simpl.
    rewrite Nat2Z.id.
    destruct (lookup_lt_is_Some_2 (orientations p) i) as [o Ho]; [simpl in Hlen; lia|].
    rewrite Ho. simpl.
    replace (Z.of_nat i + 1) with (Z.of_nat (S i)) by lia.
    destruct (IH (S i)) as [rs Hrs]; [done | simpl in Hlen; lia |].
    rewrite Hrs. simpl. eauto.
Qed.

Lemma WriteReport_total p bounds w :
  (images p ≠ [] → stride p ≠ 0) →
  length (images p) = length (orientations p) →
  ∃ w', WriteReport p bounds w = Some w'.
Proof.
  intros Hs Hlen. unfold WriteReport. destruct (canCreate w ReportFile); [|eauto].
  destruct (reportRows_total p 0 (images p)) as [rs Hrs]; [done | simpl; lia |].
  change (Z.of_nat 0) with 0 in Hrs. rewrite Hrs. simpl. eauto.
Qed.

(** A run on a decodable, well-formed source reaches its end, and the state
    it ends in is the grid state after the calls of [AddImage] on all cells
    in visiting order. *)
Lemma Process_run p w src :
  files w (SourceImagePath p) = Decoded src →
  image.wf src →
  let numX := image.Dx (image.Bounds src) `div` 128 in
  let numY := image.Dy (image.Bounds src) `div` 128 in
  ∃ p' w',
    Process p w = Some (p', w')
    ∧ runCells src (cellOrder numX numY) (gridState p numX numY) = Some p'.
Proof.
  intros Hfile [Hx Hy] numX numY.
  unfold Process, getSourceImage. rewrite Hfile.
  rewrite calculateNumberImages_div by done. fold numX numY.
  assert (0 ≤ numX) by (apply Z.div_pos; lia).
  assert (0 ≤ numY) by (apply Z.div_pos; lia).
  rewrite !make_Some by lia. cbn [mbind option_bind].
  change (mkImageSet _ _ _ _ numX) with (gridState p numX numY).
  rewrite extractLoop_runCells.
  destruct (runCells_total src (cellOrder numX numY) (gridState p numX numY))
    as [p' Hrun].
  { intros x y. apply gridState_cells_in_range. }
  { reflexivity. }
  rewrite Hrun. cbn [mbind option_bind].
  destruct (runCells_shape _ _ _ _ Hrun) as (_ & Hs & Hi & Ho).
  destruct (WriteReport_total p' (image.Bounds src) (WriteImageFiles p' w)) as [w' Hw].
  - intros Hne. rewrite Hs. cbn [stride gridState]. intros Hzero.
    apply Hne, nil_length_inv. rewrite Hi. cbn [images gridState].
    rewrite length_replicate, Hzero. reflexivity.
  - rewrite Hi, Ho. reflexivity.
  - rewrite Hw. eauto.
Qed.

Lemma index_cell numX numY (i : nat) :
  Z.of_nat i < numX * numY → 0 ≤ numX → 0 ≤ numY →
  ∃ x y, (x, y) ∈ cellOrder numX numY ∧ y * numX + x = Z.of_nat i.
Proof.
  intros Hi Hx Hy. assert (0 < numX) by nia.
  exists (Z.of_nat i `mod` numX), (Z.of_nat i `div` numX). split.
  - apply elem_of_cellOrder.
    pose proof (Z.mod_pos_bound (Z.of_nat i) numX).
    assert (0 ≤ Z.of_nat i `div` numX) by (apply Z.div_pos; lia).
    assert (Z.of_nat i `div` numX < numY) by (apply Z.div_lt_upper_bound; lia).
    lia.
  - pose proof (Z.div_mod (Z.of_nat i) numX). lia.
Qed.

(** ** One cell record per grid cell *)

Lemma NoDup_cellOrder numX numY : NoDup (cellOrder numX numY).
Proof.
  unfold cellOrder. apply NoDup_bind.
  - intros y1 y2 [x y] _ _ H1 H2.
    apply list_elem_of_fmap in H1 as (x1 & [= -> ->] & _).
    apply list_elem_of_fmap in H2 as (x2 & [= _ ->] & _). reflexivity.
  - intros y _. apply NoDup_fmap_2; [|apply NoDup_seqZ].
    intros x1 x2 [= ->]. reflexivity.
  - apply NoDup_seqZ.
Qed.

Lemma cell_index_inj s x y x' y' :
  0 ≤ x < s → 0 ≤ x' < s → 0 ≤ y → 0 ≤ y' →
  Z.to_nat (y * s + x) = Z.to_nat (y' * s + x') → x = x' ∧ y = y'.
Proof.
  intros Hx Hx' Hy Hy' Heq.
  assert (0 ≤ y * s) by nia. assert (0 ≤ y' * s) by nia.
  assert (Hz : y * s + x = y' * s + x') by lia.
  assert (y = y') by nia. subst y'. lia.
Qed.

(** What a returning call of [AddImage] leaves in the cell: a fingerprint
    and a code such that the variant of the tile at that code has this
    fingerprint, which is a key of the registry. *)
Lemma AddImage_record p img x y p' :
  AddImage p img x y = Some p' →
  ∃ h o,
    images p' = <[Z.to_nat (y * stride p + x) := h]> (images p)
    ∧ orientations p' = <[Z.to_nat (y * stride p + x) := o]> (orientations p)
    ∧ 0 ≤ o ≤ 7
    ∧ fingerprints img !! Z.to_nat o = Some h
    ∧ is_Some (protoImages p' !! h).
Proof.
  intros H. destruct (AddImage_inv _ _ _ _ _ H) as (_ & _ & _ & _ & Hcase).
  destruct Hcase as [(i & h & Hi & Hkey & Hlt & HP & -> & ->) | (_ & -> & -> & ->)].
  - exists h, (Z.of_nat i). rewrite Nat2Z.id, HP.
    split; [done|]. split; [done|]. split; [lia|]. done.
  - exists (Hash img), 0. split; [done|]. split; [done|]. split; [lia|].
    split; [reflexivity|]. rewrite lookup_insert_eq. eauto.
Qed.

Lemma AddImage_recorded src p x y p' cells :
  recorded src p cells →
  (∀ x' y', (x', y') ∈ cells →
     Z.to_nat (y' * stride p + x') ≠ Z.to_nat (y * stride p + x)) →
  AddImage p (cellTile src x y) x y = Some p' →
  recorded src p' ((x, y) :: cells).
Proof.
  intros Hrec Hfresh H.
  pose proof (AddImage_registry_subseteq _ _ _ _ _ H) as Hsub.
  destruct (AddImage_inv _ _ _ _ _ H) as (_ & Hs & Hi & Ho & _).
  destruct (AddImage_record _ _ _ _ _ H) as (h & o & Himg & Hori & Hrange & Hfp & Hkey).
  intros x' y' Hin. rewrite Hs, Himg, Hori.
  apply elem_of_cons in Hin as [[= -> ->]|Hin].
  - exists h, o. rewrite !list_lookup_insert_eq by lia. done.
  - destruct (Hrec x' y' Hin) as (h' & o' & Hh' & Ho' & Hrange' & Hfp' & Hkey').
    exists h', o'. rewrite !list_lookup_insert_ne by (apply not_eq_sym, Hfresh, Hin).
    do 4 (split; [done|]). eapply lookup_weaken_is_Some; done.
Qed.

Lemma runCells_recorded src cells p p' before :
  NoDup (cells ++ before) →
  (∀ x y, (x, y) ∈ cells ++ before → 0 ≤ x < stride p ∧ 0 ≤ y) →
  recorded src p before →
  runCells src cells p = Some p' →
  recorded src p' (cells ++ before).
Proof.
  revert p before. induction cells as [|[x y] cells IH]; intros p before Hnd Hgrid Hrec; simpl.
  - intros [= ->]. done.
  - destruct (AddImage p (cellTile src x y) x y) as [p1|] eqn:H1; [|done].
    intros Hrun. simpl in Hnd. apply NoDup_cons in Hnd as [Hnew Hnd].
    assert (Hrec1 : recorded src p1 ((x, y) :: before)).
    { apply (AddImage_recorded src p x y p1 before); [done| |done].
      intros x' y' Hin Heq.
      destruct (Hgrid x y) as [Hx Hy]; [left|].
      destruct (Hgrid x' y') as [Hx' Hy']; [right; apply elem_of_app; by right|].
      destruct (cell_index_inj _ _ _ _ _ Hx' Hx Hy' Hy Heq) as [-> ->].
      apply Hnew, elem_of_app. by right. }
    destruct (AddImage_shape _ _ _ _ _ H1) as (_ & Hs & _).
    assert (Hrec' : recorded src p' (cells ++ (x, y) :: before)).
    { apply (IH p1); [| |done|done].
      - apply NoDup_app. apply NoDup_app in Hnd as (Hc & Hdisj & Hb).
        split; [done|]. split.
        + intros c Hc1 [->|Hc2]%elem_of_cons.
          * apply Hnew, elem_of_app. by left.
          * by apply (Hdisj c).
        + apply NoDup_cons. split; [|done].
          intros Hin. apply Hnew, elem_of_app. by right.
      - intros x' y' Hin. rewrite Hs. apply Hgrid.
        apply elem_of_app in Hin as [Hin|[->|Hin]%elem_of_cons].
        + right. apply elem_of_app. by left.
        + left.
        + right. apply elem_of_app. by right. }
    intros x' y' Hin. apply Hrec'. apply elem_of_app.
    apply elem_of_cons in Hin as [Heq|Hin].
    + right. rewrite Heq. left.
    + apply elem_of_app in Hin as [Hin|Hin]; [left | right; right]; done.
Qed.

(** C4: on a decodable source of width and height at least 128, [Process]
    ends with exactly floor(width/128) * floor(height/128) cell records in
    each of the two arrays; on a source narrower or lower than 128 pixels it
    ends as well, without a panic, and with no cell record.  Every entry is
    the record that [AddImage] made for one cell of the grid: the slot
    [y * numX + x] of cell [(x, y)] holds an orientation code between 0 and
    7 and the fingerprint of the variant of the tile of that cell at this
    code, which is a key of the registry; and every slot of the arrays is
    the slot of a cell of the grid. *)
Theorem Process_cell_count p w src :
  files w (SourceImagePath p) = Decoded src →
  image.wf src →
  let width := image.Dx (image.Bounds src) in
  let height := image.Dy (image.Bounds src) in
  let numX := width `div` 128 in
  let numY := height `div` 128 in
  ∃ p' w',
    Process p w = Some (p', w')
    ∧ (128 ≤ width → 128 ≤ height →
       Z.of_nat (length (images p')) = numX * numY
       ∧ Z.of_nat (length (orientations p')) = numX * numY)
    ∧ (width < 128 ∨ height < 128 → images p' = [] ∧ orientations p' = [])
    ∧ (∀ x y, 0 ≤ x < numX → 0 ≤ y < numY →
         ∃ h o,
           images p' !! Z.to_nat (y * numX + x) = Some h
           ∧ orientations p' !! Z.to_nat (y * numX + x) = Some o
           ∧ 0 ≤ o ≤ 7
           ∧ fingerprints (cellTile src x y) !! Z.to_nat o = Some h
           ∧ is_Some (protoImages p' !! h))
    ∧ (∀ i : nat, (i < length (images p'))%nat →
         ∃ x y, 0 ≤ x < numX ∧ 0 ≤ y < numY ∧ Z.to_nat (y * numX + x) = i).
Proof.
  intros Hfile Hwf width height numX numY.
  destruct (Process_run p w src Hfile Hwf) as (p' & w' & HP & Hrun).
  fold width height in Hrun. fold numX numY in Hrun.
  destruct Hwf as [Hx Hy]. fold width in Hx. fold height in Hy.
  exists p', w'. split; [done|].
  destruct (runCells_shape _ _ _ _ Hrun) as (_ & Hs & Hi & Ho).
  cbn [images orientations stride gridState] in Hi, Ho, Hs.
  rewrite length_replicate in Hi, Ho.
  assert (HnumX : 0 ≤ numX) by (apply Z.div_pos; lia).
  assert (HnumY : 0 ≤ numY) by (apply Z.div_pos; lia).
  split; [|split; [|split]].
  - intros _ _. rewrite Hi, Ho. lia.
  - intros Hsmall.
    assert (Hzero : numX * numY = 0).
    { unfold numX, numY.
      destruct Hsmall; [rewrite (Z.div_small width) by lia
                       | rewrite (Z.div_small height) by lia]; lia. }
    rewrite Hzero in Hi, Ho. split; apply nil_length_inv; done.
  - intros x y Hcx Hcy.
    assert (Hrec : recorded src p' (cellOrder numX numY ++ [])).
    { apply (runCells_recorded src (cellOrder numX numY) (gridState p numX numY));
        [| | |exact Hrun].
      - rewrite app_nil_r. apply NoDup_cellOrder.
      - intros x' y'. rewrite app_nil_r. intros Hin%elem_of_cellOrder.
        cbn [stride gridState]. lia.
      - intros ? ? Hnil. by apply elem_of_nil in Hnil. }
    destruct (Hrec x y) as (h & o & Hh); [|rewrite Hs in Hh; eauto].
    rewrite app_nil_r. apply elem_of_cellOrder. done.
  - intros i Hlt. rewrite Hi in Hlt.
    destruct (index_cell numX numY i) as (x & y & Hin & Hidx); [lia|done|done|].
    apply elem_of_cellOrder in Hin as [Hcx Hcy].
    exists x, y. split; [done|]. split; [done|]. rewrite Hidx. apply Nat2Z.id.
Qed.

Lemma Process_cell_count_witness :
  ∃ p' w',
    Process (NewImageSet "tiles.png") (worldWith (plain 300 200 grey)) = Some (p', w')
    ∧ (128 ≤ 300 → 128 ≤ 200 →
       Z.of_nat (length (images p')) = (300 `div` 128) * (200 `div` 128)
       ∧ Z.of_nat (length (orientations p')) = (300 `div` 128) * (200 `div` 128))
    ∧ (300 < 128 ∨ 200 < 128 → images p' = [] ∧ orientations p' = [])
    ∧ (∀ x y, 0 ≤ x < 300 `div` 128 → 0 ≤ y < 200 `div` 128 →
         ∃ h o,
           images p' !! Z.to_nat (y * (300 `div` 128) + x) = Some h
           ∧ orientations p' !! Z.to_nat (y * (300 `div` 128) + x) = Some o
           ∧ 0 ≤ o ≤ 7
           ∧ fingerprints (cellTile (plain 300 200 grey) x y) !! Z.to_nat o = Some h
           ∧ is_Some (protoImages p' !! h))
    ∧ (∀ i : nat, (i < length (images p'))%nat →
         ∃ x y, 0 ≤ x < 300 `div` 128 ∧ 0 ≤ y < 200 `div` 128
                ∧ Z.to_nat (y * (300 `div` 128) + x) = i).
Proof.
  apply (Process_cell_count (NewImageSet "tiles.png") (worldWith (plain 300 200 grey))
           (plain 300 200 grey)).
  - reflexivity.
  - unfold image.wf. simpl. unfold image.Dx, image.Dy. simpl. lia.
Defined.

(** C7: when the source cannot be opened or decoded, [Process] returns at
    once: the image set is the one it was given (no cell record and no
    registry entry is produced), nothing is created (no directory, no
    picture file, no report), and the only effect is one diagnostic on the
    standard error stream. *)
Theorem Process_load_failure p w :
  (∀ img, files w (SourceImagePath p) ≠ Decoded img) →
  ∃ d, Process p w = Some (p, warn d w)
       ∧ written (warn d w) = written w
       ∧ stderr (warn d w) = stderr w ++ [d].
Proof.
  intros Hfail. unfold Process, getSourceImage.
  destruct (files w (SourceImagePath p)) as [| | | |img] eqn:Hf;
    try (eexists; split; [reflexivity|split; reflexivity]).
  exfalso. by apply (Hfail img).
Qed.

Lemma Process_load_failure_witness :
  ∃ d, Process (NewImageSet "tiles.png") (worldFailing DecodeFailed)
       = Some (NewImageSet "tiles.png", warn d (worldFailing DecodeFailed))
       ∧ written (warn d (worldFailing DecodeFailed)) = written (worldFailing DecodeFailed)
       ∧ stderr (warn d (worldFailing DecodeFailed))
         = stderr (worldFailing DecodeFailed) ++ [d].
Proof.
  apply (Process_load_failure (NewImageSet "tiles.png") (worldFailing DecodeFailed)).
  intros img. simpl. discriminate.
Defined.

(** ** Invariants of the extraction pass *)

Lemma AddImage_filled p img x y p' cells :
  filled p cells → AddImage p img x y = Some p' → filled p' ((x, y) :: cells).
Proof.
  intros Hfilled H.
  pose proof (AddImage_registry_subseteq _ _ _ _ _ H) as Hsub.
  destruct (AddImage_inv _ _ _ _ _ H) as (_ & Hs & Hi & _ & Hcase).
  assert (Hnew : ∃ h, images p' = <[Z.to_nat (y * stride p + x) := h]> (images p)
                      ∧ is_Some (protoImages p' !! h)).
  { destruct Hcase as [(i & h & _ & HP & _ & -> & -> & _) | (_ & -> & -> & _)].
    - eauto.
    - eexists. split; [reflexivity|]. rewrite lookup_insert_eq. eauto. }
  destruct Hnew as (h & Himg & Hh).
  intros x' y' Hin. rewrite Hs, Himg.
  destruct (decide (Z.to_nat (y' * stride p + x') = Z.to_nat (y * stride p + x)))
    as [Heq|Hne].
  - exists h. rewrite Heq, list_lookup_insert_eq by lia. done.
  - rewrite list_lookup_insert_ne by done.
    apply elem_of_cons in Hin as [[= -> ->]|Hin]; [done|].
    destruct (Hfilled x' y' Hin) as (h' & Hl & Hk). exists h'. split; [done|].
    eapply lookup_weaken_is_Some; done.
Qed.

Lemma runCells_filled src cells p p' before :
  filled p before → runCells src cells p = Some p' →
  filled p' (cells ++ before).
Proof.
  revert p before. induction cells as [|[x y] cells IH]; intros p before Hf; simpl.
  - intros [= ->]. done.
  - destruct (AddImage p (cellTile src x y) x y) as [p1|] eqn:H1; [|done].
    intros Hrun. pose proof (IH _ _ (AddImage_filled _ _ _ _ _ _ Hf H1) Hrun) as Hf'.
    intros x' y' Hin. apply Hf'. apply elem_of_app.
    apply elem_of_cons in Hin as [Heq|Hin].
    + right. rewrite Heq. left.
    + apply elem_of_app in Hin as [Hin|Hin]; [left | right; right]; done.
Qed.

Lemma runCells_prefix_total src p numX numY visited rest :
  cellOrder numX numY = visited ++ rest →
  ∃ pk, runCells src visited (gridState p numX numY) = Some pk.
Proof.
  intros Hsplit. apply runCells_total; [|reflexivity].
  intros x y Hin. apply gridState_cells_in_range. rewrite Hsplit.
  apply elem_of_app. by left.
Qed.

(** C5: take any point of the extraction pass, that is, the cells [visited]
    visited so far in the order of [Process].  The pass reaches that point,
    and there every visited cell holds a fingerprint that is a key of the
    registry. *)
Theorem cell_fingerprints_registered src p numX numY visited rest :
  cellOrder numX numY = visited ++ rest →
  ∃ pk, runCells src visited (gridState p numX numY) = Some pk
        ∧ ∀ x y, (x, y) ∈ visited →
            ∃ h, images pk !! Z.to_nat (y * numX + x) = Some h
                 ∧ is_Some (protoImages pk !! h).
Proof.
  intros Hsplit.
  destruct (runCells_prefix_total src p numX numY visited rest Hsplit) as [pk Hrun].
  exists pk. split; [done|]. intros x y Hin.
  assert (Hf : filled pk (visited ++ [])).
  { eapply runCells_filled; [|done]. intros ? ? Hnil. by apply elem_of_nil in Hnil. }
  destruct (runCells_shape _ _ _ _ Hrun) as (_ & Hs & _).
  destruct (Hf x y) as (h & Hh); [rewrite app_nil_r; done|].
  rewrite Hs in Hh. eauto.
Qed.

Lemma cell_fingerprints_registered_witness :
  ∃ pk, runCells (plain 256 128 grey) [(0, 0)]
          (gridState (NewImageSet "tiles.png") 2 1) = Some pk
        ∧ ∀ x y, (x, y) ∈ [(0, 0)] →
            ∃ h, images pk !! Z.to_nat (y * 2 + x) = Some h
                 ∧ is_Some (protoImages pk !! h).
Proof.
  apply (cell_fingerprints_registered (plain 256 128 grey) (NewImageSet "tiles.png")
           2 1 [(0, 0)] [(1, 0)]).
  reflexivity.
Defined.

Lemma AddImage_keyed p img x y p' :
  keyed (protoImages p) → AddImage p img x y = Some p' → keyed (protoImages p').
Proof.
  intros Hk H.
  destruct (AddImage_inv _ _ _ _ _ H) as (_ & _ & _ & _ & Hcase).
  destruct Hcase as [(i & h & _ & _ & _ & -> & _) | (_ & -> & _)]; [done|].
  intros k v. destruct (decide (k = Hash img)) as [->|Hne].
  - rewrite lookup_insert_eq. by intros [= <-].
  - rewrite lookup_insert_ne by done. apply Hk.
Qed.

Lemma runCells_keyed src cells p p' :
  keyed (protoImages p) → runCells src cells p = Some p' → keyed (protoImages p').
Proof.
  revert p. induction cells as [|[x y] cells IH]; intros p Hk; simpl.
  - intros [= ->]. done.
  - destruct (AddImage p (cellTile src x y) x y) as [p1|] eqn:H1; [|done].
    apply IH. eapply AddImage_keyed; done.
Qed.

Lemma keyed_empty : keyed ∅.
Proof. intros k v. rewrite lookup_empty. done. Qed.

(** C9: when [AddImage] stores a prototype, the key is the fingerprint of
    the stored picture; so from a registry with that property (the empty
    registry of [NewImageSet] has it) the pass reaches each of its points,
    and there every key of the registry is the fingerprint of the picture
    stored under it. *)
Theorem registry_keys_are_fingerprints src p numX numY visited rest :
  keyed (protoImages p) →
  cellOrder numX numY = visited ++ rest →
  ∃ pk, runCells src visited (gridState p numX numY) = Some pk
        ∧ ∀ k v, protoImages pk !! k = Some v → k = Hash v.
Proof.
  intros Hk Hsplit.
  destruct (runCells_prefix_total src p numX numY visited rest Hsplit) as [pk Hrun].
  exists pk. split; [done|]. exact (runCells_keyed src visited (gridState p numX numY) pk Hk Hrun).
Qed.

Lemma registry_keys_are_fingerprints_witness :
  ∃ pk, runCells (plain 256 128 grey) [(0, 0); (1, 0)]
          (gridState (NewImageSet "tiles.png") 2 1) = Some pk
        ∧ ∀ k v, protoImages pk !! k = Some v → k = Hash v.
Proof.
  apply (registry_keys_are_fingerprints (plain 256 128 grey) (NewImageSet "tiles.png")
           2 1 [(0, 0); (1, 0)] []).
  - apply keyed_empty.
  - reflexivity.
Defined.

(** ** The eight orientations *)

Lemma Rect_origin (w h : Z) :
  0 ≤ w → 0 ≤ h →
  image.Rect 0 0 w h = image.mkRectangle (image.mkPoint 0 0) (image.mkPoint w h).
Proof.
  intros Hw Hh. unfold image.Rect. rewrite !decide_False by lia. reflexivity.
Qed.

(** Bounds and pixels of a picture made by [imaging.NewNRGBA]. *)
Lemma NewNRGBA_Bounds w h f :
  0 ≤ w → 0 ≤ h →
  image.Bounds (imaging.NewNRGBA w h f)
  = image.mkRectangle (image.mkPoint 0 0) (image.mkPoint w h).
Proof. intros. unfold imaging.NewNRGBA. simpl. by apply Rect_origin. Qed.

Ltac unfold_imaging :=
  unfold imaging.Rotate90, imaging.Rotate180, imaging.Rotate270, imaging.FlipH,
    imaging.px, image.Dx, image.Dy;
  cbn [image.Bounds image.At imaging.NewNRGBA image.Max image.Min image.X image.Y].

Ltac same_pixels :=
  split;
  [ reflexivity || (f_equal; f_equal; lia)
  | intros x y [Hx Hy];
    cbn [image.At image.Bounds image.Max image.Min image.X image.Y] in *;
    f_equal; lia ].

(** C8: for a tile [T] and an orientation index [i] between 0 and 7, the
    inverse of orientation [i] applied to the variant [images[i]] that
    [AddImage] builds from [T] has the bounds of [T] and the colour of [T] at
    every pixel. *)
Theorem variant_inverse_roundtrip (T : image.Image) (i : nat) :
  atOrigin T → (i < 8)%nat →
  ∃ v, variants T !! i = Some v ∧ image.same (inverseOrientation i v) T.
Proof.
  destruct T as [[[x0 y0] [x1 y1]] at_T]. unfold atOrigin, image.wf, image.Dx, image.Dy.
  simpl. intros [[= -> ->] [Hw Hh]] Hi. rewrite Z.sub_0_r in Hw, Hh.
  assert (Hcases : (i = 0 ∨ i = 1 ∨ i = 2 ∨ i = 3 ∨ i = 4 ∨ i = 5 ∨ i = 6 ∨ i = 7)%nat)
    by lia.
  destruct Hcases as [H|[H|[H|[H|[H|[H|[H|H]]]]]]]; subst i;
    eexists; (split; [reflexivity|]); cbn [inverseOrientation];
    unfold image.same; unfold_imaging;
    repeat (rewrite ?Z.sub_0_r, ?(Rect_origin x1 y1), ?(Rect_origin y1 x1) by lia;
            cbn [image.Bounds image.At image.Max image.Min image.X image.Y]);
    same_pixels.
Qed.

Lemma variant_inverse_roundtrip_witness :
  ∃ v, variants (plain 2 3 grey) !! 5%nat = Some v
       ∧ image.same (inverseOrientation 5 v) (plain 2 3 grey).
Proof.
  apply (variant_inverse_roundtrip (plain 2 3 grey) 5).
  - split; [reflexivity|]. unfold image.wf, image.Dx, image.Dy. simpl. lia.
  - lia.
Defined.

(** ** The buffer of [Hash] *)

Lemma convertUint32ToBytes_here value pre old suf off :
  length old = 4%nat → off = Z.of_nat (length pre) →
  convertUint32ToBytes value (pre ++ old ++ suf) off = pre ++ be32 value ++ suf.
Proof.
  intros Hold ->. destruct old as [|o0 [|o1 [|o2 [|o3 [|]]]]]; try done.
  unfold convertUint32ToBytes, be32.
  replace (Z.to_nat (Z.of_nat (length pre) + 0)) with (length pre + 0)%nat by lia.
  replace (Z.to_nat (Z.of_nat (length pre) + 1)) with (length pre + 1)%nat by lia.
  replace (Z.to_nat (Z.of_nat (length pre) + 2)) with (length pre + 2)%nat by lia.
  replace (Z.to_nat (Z.of_nat (length pre) + 3)) with (length pre + 3)%nat by lia.
  rewrite !insert_app_r. reflexivity.
Qed.

Lemma replicate_12_more {T : Type} (z : nat) (v : T) :
  (12 ≤ z)%nat →
  replicate z v = [v; v; v; v] ++ [v; v; v; v] ++ [v; v; v; v] ++ replicate (z - 12) v.
Proof.
  intros H. replace z with (12 + (z - 12))%nat at 1 by lia. reflexivity.
Qed.

(** One pixel: sixteen bytes are written, the position moves by twelve. *)
Lemma writePixel_step c done_ al z :
  length al = 4%nat → (12 ≤ z)%nat →
  writePixel (done_ ++ al ++ replicate z 0, Z.of_nat (length done_)) c
  = ((done_ ++ colourBytes c) ++ alphaBytes c ++ replicate (z - 12) 0,
     Z.of_nat (length (done_ ++ colourBytes c))).
Proof.
  intros Hal Hz. unfold writePixel, colourBytes, alphaBytes.
  destruct (color.RGBA c) as [[[r g] b] a].
  rewrite (replicate_12_more z) by done.
  rewrite (convertUint32ToBytes_here r done_ al) by done.
  set (rest := replicate (z - 12) 0).
  assert (H1 : done_ ++ be32 r ++ [0; 0; 0; 0] ++ [0; 0; 0; 0] ++ [0; 0; 0; 0] ++ rest
               = (done_ ++ be32 r) ++ [0; 0; 0; 0] ++ [0; 0; 0; 0] ++ [0; 0; 0; 0] ++ rest)
    by (rewrite <- app_assoc; reflexivity).
  rewrite H1.
  rewrite (convertUint32ToBytes_here g (done_ ++ be32 r) [0; 0; 0; 0])
    by (rewrite ?length_app; simpl; lia).
  assert (H2 : (done_ ++ be32 r) ++ be32 g ++ [0; 0; 0; 0] ++ [0; 0; 0; 0] ++ rest
               = (done_ ++ be32 r ++ be32 g) ++ [0; 0; 0; 0] ++ [0; 0; 0; 0] ++ rest)
    by (rewrite <- !app_assoc; reflexivity).
  rewrite H2.
  rewrite (convertUint32ToBytes_here b (done_ ++ be32 r ++ be32 g) [0; 0; 0; 0])
    by (rewrite ?length_app; simpl; lia).
  assert (H3 : (done_ ++ be32 r ++ be32 g) ++ be32 b ++ [0; 0; 0; 0] ++ rest
               = (done_ ++ be32 r ++ be32 g ++ be32 b) ++ [0; 0; 0; 0] ++ rest)
    by (rewrite <- !app_assoc; reflexivity).
  rewrite H3.
  rewrite (convertUint32ToBytes_here a (done_ ++ be32 r ++ be32 g ++ be32 b) [0; 0; 0; 0])
    by (rewrite ?length_app; simpl; lia).
  f_equal. rewrite !length_app. simpl. lia.
Qed.

Lemma lastAlpha_cons al c cs : lastAlpha al (c :: cs) = lastAlpha (alphaBytes c) cs.
Proof.
  unfold lastAlpha. destruct cs as [|c' cs]; [reflexivity|].
  change (last (c :: c' :: cs)) with (last (c' :: cs)).
  destruct (last (c' :: cs)) eqn:E; [reflexivity|].
  apply last_None in E. discriminate.
Qed.

(** All pixels: the loop invariant of [Hash]. *)
Lemma writePixels cs : ∀ done_ al z,
  length al = 4%nat → (12 * length cs ≤ z)%nat →
  fold_left writePixel cs (done_ ++ al ++ replicate z 0, Z.of_nat (length done_))
  = (done_ ++ (c ← cs; colourBytes c) ++ lastAlpha al cs
       ++ replicate (z - 12 * length cs) 0,
     Z.of_nat (length done_ + 12 * length cs)).
Proof.
  induction cs as [|c cs IH]; intros done_ al z Hal Hz.
  - simpl. rewrite Nat.sub_0_r, Nat.add_0_r. reflexivity.
  - cbn [fold_left]. rewrite length_cons in Hz |- *.
    rewrite writePixel_step by (done || lia).
    rewrite IH.
    + rewrite lastAlpha_cons. cbn [mbind list_bind].
      rewrite <- !app_assoc. f_equal.
      * replace (z - 12 - 12 * length cs)%nat with (z - 12 * S (length cs))%nat by lia.
        reflexivity.
      * rewrite length_app. unfold colourBytes.
        destruct (color.RGBA c) as [[[r g] b] a]. simpl. lia.
    + unfold alphaBytes. destruct (color.RGBA c) as [[[r g] b] a]. reflexivity.
    + lia.
Qed.

Lemma hashPixel_writePixel img y x st :
  hashPixel img y x st = writePixel st (image.At img x y).
Proof. destruct st. reflexivity. Qed.

Lemma rowLoop_pixels img y (n : nat) (x0 : Z) st :
  for_loop n x0 (hashPixel img y) st
  = fold_left writePixel ((λ x, image.At img x y) <$> seqZ x0 (Z.of_nat n)) st.
Proof.
  revert x0 st. induction n as [|n IH]; intros x0 st.
  - reflexivity.
  - rewrite seqZ_of_nat_S. cbn [for_loop fmap list_fmap fold_left].
    rewrite hashPixel_writePixel. apply IH.
Qed.

Lemma row_pixels img y (xlo xhi : Z) st :
  for_range xlo xhi (hashPixel img y) st
  = fold_left writePixel ((λ x, image.At img x y) <$> seqZ xlo (xhi - xlo)) st.
Proof. unfold for_range. rewrite rowLoop_pixels, seqZ_to_nat. reflexivity. Qed.

Lemma gridLoop_pixels img (xlo xhi : Z) (n : nat) (y0 : Z) st :
  for_loop n y0 (λ y st, for_range xlo xhi (hashPixel img y) st) st
  = fold_left writePixel
      (y ← seqZ y0 (Z.of_nat n); (λ x, image.At img x y) <$> seqZ xlo (xhi - xlo)) st.
Proof.
  revert y0 st. induction n as [|n IH]; intros y0 st.
  - reflexivity.
  - rewrite seqZ_of_nat_S. cbn [for_loop mbind list_bind].
    rewrite fold_left_app, <- row_pixels. apply IH.
Qed.

Lemma hashData_fold img :
  hashData img
  = fst (fold_left writePixel (pixels img)
           (replicate (Z.to_nat (image.Dx (image.Bounds img)
                                 * image.Dy (image.Bounds img) * 16)) 0, 0)).
Proof.
  unfold hashData, pixels, image.Dx, image.Dy. unfold for_range at 1.
  rewrite gridLoop_pixels, seqZ_to_nat. reflexivity.
Qed.

Lemma length_grid {T U V : Type} (f : U → T → V) (ys : list T) (xs : list U) :
  length (y ← ys; (λ x, f x y) <$> xs) = (length ys * length xs)%nat.
Proof.
  induction ys as [|y ys IH]; [reflexivity|].
  cbn [mbind list_bind]. rewrite length_app, length_fmap, IH. simpl. lia.
Qed.

Lemma pixels_length img :
  length (pixels img)
  = (Z.to_nat (image.Dy (image.Bounds img)) * Z.to_nat (image.Dx (image.Bounds img)))%nat.
Proof. unfold pixels. rewrite length_grid, !length_seqZ. reflexivity. Qed.

(** The buffer of [Hash] after its loops, for every well-formed picture. *)
Lemma hashData_packed img : image.wf img → hashData img = packed img.
Proof.
  intros [Hx Hy]. rewrite hashData_fold. unfold packed.
  pose proof (pixels_length img) as Hlen.
  set (n := length (pixels img)) in *.
  assert (Hsize : Z.to_nat (image.Dx (image.Bounds img) * image.Dy (image.Bounds img) * 16)
                  = (16 * n)%nat) by lia.
  rewrite Hsize.
  destruct (last (pixels img)) as [c|] eqn:Hlast.
  - assert (Hn : (1 ≤ n)%nat).
    { destruct (pixels img); [discriminate|]. unfold n. simpl. lia. }
    replace (16 * n)%nat with (4 + (16 * n - 4))%nat by lia.
    change (replicate (4 + (16 * n - 4)) 0)
      with ([] ++ [0; 0; 0; 0] ++ replicate (16 * n - 4) 0).
    change 0 with (Z.of_nat (length (@nil Z))) at 6.
    rewrite writePixels by (reflexivity || (fold n; lia)).
    fold n. cbn [fst app]. unfold lastAlpha. rewrite Hlast.
    do 2 f_equal. f_equal. lia.
  - apply last_None in Hlast. unfold n. rewrite Hlast. reflexivity.
Qed.

Lemma Hash_packed img :
  image.wf img → Hash img = fnv.Write fnv.offset64 (packed img).
Proof. intros Hwf. unfold Hash. rewrite hashData_packed by done. reflexivity. Qed.

Lemma NewNRGBA_wf w h f : 0 ≤ w → 0 ≤ h → image.wf (imaging.NewNRGBA w h f).
Proof.
  intros Hw Hh. unfold image.wf. rewrite NewNRGBA_Bounds by done.
  unfold image.Dx, image.Dy. simpl. lia.
Qed.

(** ** FNV-1a over runs of zeros *)

Lemma u64_mul_l a b : u64 (u64 a * b) = u64 (a * b).
Proof. unfold u64. rewrite Z.mul_mod_idemp_l by lia. reflexivity. Qed.

Lemma u64_mul_r a b : u64 (a * u64 b) = u64 (a * b).
Proof. unfold u64. rewrite Z.mul_mod_idemp_r by lia. reflexivity. Qed.

Lemma u64_square a : u64 (u64 a * u64 a) = u64 (a * a).
Proof. rewrite u64_mul_l, u64_mul_r. reflexivity. Qed.

Lemma primePower_spec k : primePower k = u64 (fnv.prime64 ^ Z.pos k).
Proof.
  induction k as [k IH|k IH|]; cbn [primePower].
  - rewrite IH, u64_square, u64_mul_l. f_equal.
    rewrite Pos2Z.inj_xI.
    replace (2 * Z.pos k + 1) with (Z.pos k + Z.pos k + 1) by lia.
    rewrite !Z.pow_add_r by lia. lia.
  - rewrite IH, u64_square. f_equal.
    rewrite Pos2Z.inj_xO. replace (2 * Z.pos k) with (Z.pos k + Z.pos k) by lia.
    rewrite Z.pow_add_r by lia. reflexivity.
  - reflexivity.
Qed.

Lemma step_zero hash : fnv.step hash 0 = u64 (hash * fnv.prime64).
Proof. unfold fnv.step. change (u64 0) with 0. rewrite Z.lxor_0_r. reflexivity. Qed.

Lemma Write_zeros hash (k : nat) :
  fnv.Write hash (replicate (S k) 0) = u64 (hash * fnv.prime64 ^ Z.of_nat (S k)).
Proof.
  revert hash. induction k as [|k IH]; intros hash.
  - simpl. rewrite step_zero. f_equal.
  - change (fnv.Write hash (replicate (S (S k)) 0))
      with (fnv.Write (fnv.step hash 0) (replicate (S k) 0)).
    rewrite IH, step_zero, u64_mul_l. f_equal.
    replace (Z.of_nat (S (S k))) with (1 + Z.of_nat (S k)) by lia.
    rewrite Z.pow_add_r by lia. lia.
Qed.

Lemma skipZeros_spec hash (k : N) :
  skipZeros hash k = fnv.Write hash (replicate (N.to_nat k) 0).
Proof.
  destruct k as [|k]; [reflexivity|].
  destruct (Pos2Nat.is_succ k) as [n Hn].
  change (N.to_nat (N.pos k)) with (Pos.to_nat k). rewrite Hn, Write_zeros.
  cbn [skipZeros]. rewrite primePower_spec, u64_mul_r.
  rewrite <- Hn, positive_nat_Z. reflexivity.
Qed.

Lemma Write_app hash d1 d2 : fnv.Write hash (d1 ++ d2) = fnv.Write (fnv.Write hash d1) d2.
Proof. unfold fnv.Write. apply fold_left_app. Qed.

(** The hash that a state of the quick evaluation stands for. *)
Lemma quickScan_spec data : ∀ hash zeros,
  skipZeros (quickScan hash zeros data).1 (quickScan hash zeros data).2
  = fnv.Write hash (replicate (N.to_nat zeros) 0 ++ data).
Proof.
  induction data as [|c data IH]; intros hash zeros; cbn [quickScan].
  - rewrite app_nil_r. apply skipZeros_spec.
  - case_decide as Hc.
    + subst c. rewrite IH, N2Nat.inj_succ.
      replace (replicate (S (N.to_nat zeros)) 0 ++ data)
        with (replicate (N.to_nat zeros) 0 ++ 0 :: data); [reflexivity|].
      rewrite replicate_S_end, <- app_assoc. reflexivity.
    + rewrite IH, skipZeros_spec. simpl. rewrite Write_app. reflexivity.
Qed.

Lemma isClear_bytes c : isClear c = true → colourBytes c = replicate 12 0.
Proof.
  destruct c as [r g b a]. unfold isClear. simpl.
  rewrite !andb_true_iff, !Z.eqb_eq. intros [[[-> ->] ->] ->]. reflexivity.
Qed.

Lemma quickPixels_spec cs : ∀ hash zeros,
  skipZeros (quickPixels hash zeros cs).1 (quickPixels hash zeros cs).2
  = fnv.Write hash (replicate (N.to_nat zeros) 0 ++ (c ← cs; colourBytes c)).
Proof.
  induction cs as [|c cs IH]; intros hash zeros; cbn [quickPixels mbind list_bind].
  - rewrite app_nil_r. apply skipZeros_spec.
  - destruct (isClear c) eqn:Hclear.
    + rewrite IH, (isClear_bytes c Hclear), app_assoc, <- replicate_add.
      do 3 f_equal. lia.
    + pose proof (quickScan_spec (colourBytes c) hash zeros) as Hscan.
      destruct (quickScan hash zeros (colourBytes c)) as [h z]. simpl in Hscan.
      rewrite IH, (app_assoc _ (colourBytes c)), !Write_app.
      rewrite <- (skipZeros_spec h z), Hscan, Write_app. reflexivity.
Qed.

(** The quick evaluation computes the fingerprint. *)
Lemma Hash_quickHash img : image.wf img → Hash img = quickHash img.
Proof.
  intros Hwf. rewrite Hash_packed by done. unfold quickHash, packed.
  destruct (last (pixels img)) as [c|]; [|reflexivity].
  pose proof (quickPixels_spec (pixels img) fnv.offset64 0) as Hpx.
  destruct (quickPixels fnv.offset64 0 (pixels img)) as [h z]. simpl in Hpx.
  pose proof (quickScan_spec (alphaBytes c) h z) as Hscan.
  destruct (quickScan h z (alphaBytes c)) as [h' z']. simpl in Hscan.
  set (k := (4 * (length (pixels img) - 1))%nat).
  rewrite skipZeros_spec.
  replace (N.to_nat (z' + N.of_nat k)) with (N.to_nat z' + k)%nat by lia.
  rewrite replicate_add, (Write_app h'), <- (skipZeros_spec h' z'), Hscan.
  rewrite (Write_app h), <- (skipZeros_spec h z), Hpx.
  rewrite !Write_app. reflexivity.
Qed.

Lemma pierced_same_buffer : hashData opaqueTile = hashData piercedTile.
Proof.
  rewrite !hashData_packed by (apply NewNRGBA_wf; lia).
  apply (bool_decide_unpack _). vm_cast_no_check I.
Qed.

Lemma pierced_other_serialization : serialize opaqueTile ≠ serialize piercedTile.
Proof.
  intros Heq. apply (f_equal (take 16)) in Heq. vm_compute in Heq. discriminate.
Qed.

Lemma pierced_elsewhere x y :
  (x, y) ≠ (0, 0) → image.At opaqueTile x y = image.At piercedTile x y.
Proof.
  intros Hne. unfold opaqueTile, piercedTile. cbn [image.At imaging.NewNRGBA].
  case_decide as H0; [|reflexivity]. destruct H0 as [-> ->]. contradiction.
Qed.

(** C1 (evaluation): the two tiles [opaqueTile] and [piercedTile] have the
    same bounds and the same colour at every pixel but the top-left one,
    whose alpha is 255 in the first and 0 in the second.  The byte sequence
    of the spec tells them apart; the buffer that [Hash] fills does not, so
    the two fingerprints are equal. *)
Theorem Hash_ignores_inner_alpha :
  image.Bounds opaqueTile = image.Bounds piercedTile
  ∧ (∀ x y, image.inside (image.Bounds opaqueTile) x y → (x, y) ≠ (0, 0) →
            image.At opaqueTile x y = image.At piercedTile x y)
  ∧ color.RGBA (image.At opaqueTile 0 0) = (0, 0, 0, 65535)
  ∧ color.RGBA (image.At piercedTile 0 0) = (0, 0, 0, 0)
  ∧ serialize opaqueTile ≠ serialize piercedTile
  ∧ hashData opaqueTile = hashData piercedTile
  ∧ Hash opaqueTile = Hash piercedTile.
Proof.
  split; [reflexivity|]. split; [intros x y _; apply pierced_elsewhere|].
  split; [reflexivity|]. split; [reflexivity|].
  split; [exact pierced_other_serialization|].
  split; [exact pierced_same_buffer|].
  unfold Hash. rewrite pierced_same_buffer. reflexivity.
Qed.

(** ** Pictures with the same pixels have the same fingerprint *)

Lemma grid_ext {T : Type} (f g : Z → Z → T) (ys xs : list Z) :
  (∀ x y, x ∈ xs → y ∈ ys → f x y = g x y) →
  (y ← ys; (λ x, f x y) <$> xs) = (y ← ys; (λ x, g x y) <$> xs).
Proof.
  intros Hext. induction ys as [|y ys IH]; [reflexivity|].
  cbn [mbind list_bind]. f_equal.
  - apply list_fmap_ext. intros i x Hx. apply Hext; [|left].
    eapply list_elem_of_lookup_2. done.
  - apply IH. intros x y' Hx Hy. apply Hext; [done|by right].
Qed.

Lemma pixels_same a b : image.same a b → pixels a = pixels b.
Proof.
  intros [Hb Hpx]. unfold pixels. rewrite <- Hb. apply grid_ext.
  intros x y Hx%elem_of_seqZ Hy%elem_of_seqZ. apply Hpx.
  unfold image.inside, image.Dx, image.Dy in *. lia.
Qed.

Lemma Hash_same a b : image.same a b → image.wf a → Hash a = Hash b.
Proof.
  intros Hsame Hwf.
  assert (Hwfb : image.wf b) by (unfold image.wf; rewrite <- (proj1 Hsame); done).
  rewrite !Hash_packed by done. unfold packed.
  rewrite (pixels_same a b Hsame). reflexivity.
Qed.

(** ** Tiles and their variants are pictures at the origin *)

Lemma NewNRGBA_atOrigin w h f : 0 ≤ w → 0 ≤ h → atOrigin (imaging.NewNRGBA w h f).
Proof.
  intros Hw Hh. split; [|by apply NewNRGBA_wf].
  rewrite NewNRGBA_Bounds by done. reflexivity.
Qed.

Lemma Crop_atOrigin img rect : atOrigin (imaging.Crop img rect).
Proof.
  unfold imaging.Crop.
  set (r := image.Sub (image.Intersect rect (image.Bounds img))
              (image.Min (image.Bounds img))).
  destruct (image.Empty r) eqn:Hempty.
  - split; [reflexivity|]. unfold image.wf, image.Dx, image.Dy. simpl. lia.
  - unfold image.Empty in Hempty. apply bool_decide_eq_false in Hempty.
    apply NewNRGBA_atOrigin; unfold image.Dx, image.Dy; lia.
Qed.

Lemma cellTile_atOrigin src x y : atOrigin (cellTile src x y).
Proof. apply Crop_atOrigin. Qed.

Lemma variants_atOrigin img v : atOrigin img → v ∈ variants img → atOrigin v.
Proof.
  intros [Hmin [Hw Hh]] Hv.
  assert (Hflip : image.Bounds (imaging.FlipH img)
                  = image.mkRectangle (image.mkPoint 0 0)
                      (image.mkPoint (image.Dx (image.Bounds img))
                                     (image.Dy (image.Bounds img)))).
  { unfold imaging.FlipH. apply NewNRGBA_Bounds; done. }
  unfold variants in Hv.
  repeat (apply elem_of_cons in Hv as [->|Hv]); try (by apply elem_of_nil in Hv);
    try (split; done);
    unfold imaging.Rotate90, imaging.Rotate180, imaging.Rotate270;
    rewrite ?Hflip; unfold image.Dx, image.Dy in *;
    cbn [image.Max image.Min image.X image.Y];
    try (apply NewNRGBA_atOrigin; lia).
  unfold imaging.FlipH. apply NewNRGBA_atOrigin; unfold image.Dx, image.Dy; lia.
Qed.

Lemma fingerprints_quick img :
  atOrigin img → fingerprints img = quickHash <$> variants img.
Proof.
  intros Hor. unfold fingerprints. apply list_fmap_ext. intros i v Hv.
  apply Hash_quickHash. eapply variants_atOrigin; [done|].
  eapply list_elem_of_lookup_2. done.
Qed.

(** ** A quarter turn and its inverse *)

Lemma Rotate270_same a b :
  image.wf a → image.same a b → image.same (imaging.Rotate270 a) (imaging.Rotate270 b).
Proof.
  intros [Hw Hh] [Hb Hpx]. unfold imaging.Rotate270. rewrite <- Hb.
  split; [reflexivity|].
  cbn [image.Bounds image.At imaging.NewNRGBA]. rewrite Rect_origin by done.
  intros x y [Hx Hy]. cbn [image.Max image.Min image.X image.Y] in Hx, Hy.
  unfold imaging.px. rewrite <- Hb. apply Hpx.
  unfold image.inside, image.Dx, image.Dy in *. lia.
Qed.

Lemma Rotate270_Rotate90 T :
  atOrigin T → image.same (imaging.Rotate270 (imaging.Rotate90 T)) T.
Proof.
  destruct T as [[[x0 y0] [x1 y1]] at_T]. unfold atOrigin, image.wf, image.Dx, image.Dy.
  simpl. intros [[= -> ->] [Hw Hh]]. rewrite Z.sub_0_r in Hw, Hh.
  unfold image.same; unfold_imaging;
    repeat (rewrite ?Z.sub_0_r, ?(Rect_origin x1 y1), ?(Rect_origin y1 x1) by lia;
            cbn [image.Bounds image.At image.Max image.Min image.X image.Y]);
    same_pixels.
Qed.

(** ** Deciding by evaluation *)

Lemma colourEqb_eq c d : colourEqb c d = true → c = d.
Proof.
  destruct c, d. unfold colourEqb. simpl.
  rewrite !andb_true_iff, !Z.eqb_eq. intros [[[-> ->] ->] ->]. reflexivity.
Qed.

Lemma rectEqb_eq r s : rectEqb r s = true → r = s.
Proof.
  destruct r as [[? ?] [? ?]], s as [[? ?] [? ?]]. unfold rectEqb. simpl.
  rewrite !andb_true_iff, !Z.eqb_eq. intros [[[-> ->] ->] ->]. reflexivity.
Qed.

Lemma sameb_same a b : sameb a b = true → image.same a b.
Proof.
  unfold sameb. rewrite andb_true_iff. intros [Hr Hpx].
  apply rectEqb_eq in Hr. split; [done|].
  intros x y [Hx Hy]. apply colourEqb_eq.
  rewrite forallb_forall in Hpx.
  specialize (Hpx y). rewrite forallb_forall in Hpx.
  apply Hpx; apply list_elem_of_In, elem_of_seqZ; unfold image.Dx, image.Dy; lia.
Qed.

Lemma differ_at a b x y :
  image.inside (image.Bounds a) x y → image.At a x y ≠ image.At b x y →
  ¬ image.same a b.
Proof. intros Hin Hne [_ Hpx]. apply Hne, Hpx, Hin. Qed.

Lemma distinctb_spec hs h0 : distinctb hs h0 = true → ∀ h, h ∈ hs → h ≠ h0.
Proof.
  unfold distinctb. rewrite forallb_forall. intros Hall h Hin%list_elem_of_In.
  specialize (Hall h Hin). apply negb_true_iff, Z.eqb_neq in Hall. done.
Qed.

Lemma scenarioDistinctb_spec i src :
  scenarioDistinctb i src = true → scenarioDistinct i src.
Proof.
  unfold scenarioDistinctb, scenarioDistinct. cbv zeta.
  rewrite !andb_true_iff. intros [[[H1 H2] H3] H4].
  pose proof (cellTile_atOrigin src 0 0) as O00.
  pose proof (cellTile_atOrigin src 1 0) as O10.
  pose proof (cellTile_atOrigin src 0 1) as O01.
  pose proof (cellTile_atOrigin src 1 1) as O11.
  rewrite !fingerprints_quick by done.
  rewrite !Hash_quickHash by (apply O00 || apply O01).
  rewrite <- fmap_take.
  split; [|split].
  - exact (distinctb_spec _ _ H1).
  - exact (distinctb_spec _ _ H2).
  - intros h Hin. split.
    + exact (distinctb_spec _ _ H3 h Hin).
    + exact (distinctb_spec _ _ H4 h Hin).
Qed.

(** ** The scenario of four quadrants *)

Lemma same_trans a b c : image.same a b → image.same b c → image.same a c.
Proof.
  intros [Hab Hpab] [Hbc Hpbc]. split; [congruence|].
  intros x y Hin. rewrite Hpab by done. apply Hpbc. rewrite <- Hab. done.
Qed.

Lemma Rotate270_wf img : image.wf img → image.wf (imaging.Rotate270 img).
Proof. intros [Hw Hh]. unfold imaging.Rotate270. by apply NewNRGBA_wf. Qed.

(** Turning back the quarter turn gives a picture with the fingerprint of
    the original. *)
Lemma Hash_turned_back T T' :
  atOrigin T → atOrigin T' → image.same T' (imaging.Rotate90 T) →
  Hash (imaging.Rotate270 T') = Hash T.
Proof.
  intros HT HT' Hrot. apply Hash_same.
  - eapply same_trans; [apply Rotate270_same; [apply HT'|exact Hrot]|].
    by apply Rotate270_Rotate90.
  - apply Rotate270_wf, HT'.
Qed.

Lemma AddImage_miss_at p img x y (n : nat) :
  y * stride p + x = Z.of_nat n →
  (n < length (images p))%nat → (n < length (orientations p))%nat →
  (∀ h, h ∈ fingerprints img → protoImages p !! h = None) →
  AddImage p img x y =
    Some (mkImageSet (SourceImagePath p) (<[Hash img := img]> (protoImages p))
            (<[n := Hash img]> (images p)) (<[n := 0]> (orientations p)) (stride p)).
Proof.
  intros Hn Hi Ho Hnone. rewrite (AddImage_miss p img x y).
  - rewrite Hn, Nat2Z.id. reflexivity.
  - rewrite Hn. lia.
  - rewrite Hn. lia.
  - done.
Qed.

Lemma AddImage_hit_at p img x y (n i : nat) h :
  y * stride p + x = Z.of_nat n →
  (n < length (images p))%nat → (n < length (orientations p))%nat →
  fingerprints img !! i = Some h →
  is_Some (protoImages p !! h) →
  (∀ h', h' ∈ take i (fingerprints img) → protoImages p !! h' = None) →
  AddImage p img x y =
    Some (mkImageSet (SourceImagePath p) (protoImages p)
            (<[n := h]> (images p)) (<[n := Z.of_nat i]> (orientations p)) (stride p)).
Proof.
  intros Hn Hi Ho Hfp HP Hfirst.
  rewrite (AddImage_hit p img x y i h).
  - rewrite Hn, Nat2Z.id. reflexivity.
  - rewrite Hn. lia.
  - rewrite Hn. lia.
  - done.
  - done.
  - intros j h' Hlt Hj. apply Hfirst.
    apply (list_elem_of_lookup_2 _ j). rewrite lookup_take_lt by done. done.
Qed.

Lemma Rotate90_same a b :
  image.wf a → image.same a b → image.same (imaging.Rotate90 a) (imaging.Rotate90 b).
Proof.
  intros [Hw Hh] [Hb Hpx]. unfold imaging.Rotate90. rewrite <- Hb.
  split; [reflexivity|].
  cbn [image.Bounds image.At imaging.NewNRGBA]. rewrite Rect_origin by done.
  intros x y [Hx Hy]. cbn [image.Max image.Min image.X image.Y] in Hx, Hy.
  unfold imaging.px. rewrite <- Hb. apply Hpx.
  unfold image.inside, image.Dx, image.Dy in *. lia.
Qed.

Lemma Rotate90_Rotate270 T :
  atOrigin T → image.same (imaging.Rotate90 (imaging.Rotate270 T)) T.
Proof.
  destruct T as [[[x0 y0] [x1 y1]] at_T]. unfold atOrigin, image.wf, image.Dx, image.Dy.
  simpl. intros [[= -> ->] [Hw Hh]]. rewrite Z.sub_0_r in Hw, Hh.
  unfold image.same; unfold_imaging;
    repeat (rewrite ?Z.sub_0_r, ?(Rect_origin x1 y1), ?(Rect_origin y1 x1) by lia;
            cbn [image.Bounds image.At image.Max image.Min image.X image.Y]);
    same_pixels.
Qed.

Lemma Rotate90_wf img : image.wf img → image.wf (imaging.Rotate90 img).
Proof. intros [Hw Hh]. unfold imaging.Rotate90. by apply NewNRGBA_wf. Qed.

(** Turning the other quarter turn forward again. *)
Lemma Hash_turned_forward T T' :
  atOrigin T → atOrigin T' → image.same T' (imaging.Rotate270 T) →
  Hash (imaging.Rotate90 T') = Hash T.
Proof.
  intros HT HT' Hrot. apply Hash_same.
  - eapply same_trans; [apply Rotate90_same; [apply HT'|exact Hrot]|].
    by apply Rotate90_Rotate270.
  - apply Rotate90_wf, HT'.
Qed.

(** The variant of the top-right tile that is the top-left tile. *)
Lemma turned_back_match src :
  image.same (cellTile src 1 0) (imaging.Rotate90 (cellTile src 0 0)) →
  fingerprints (cellTile src 1 0) !! 3%nat = Some (Hash (cellTile src 0 0)).
Proof.
  intros Hrot.
  rewrite <- (Hash_turned_back _ _ (cellTile_atOrigin src 0 0)
                (cellTile_atOrigin src 1 0) Hrot).
  reflexivity.
Qed.

Lemma turned_forward_match src :
  image.same (cellTile src 1 0) (imaging.Rotate270 (cellTile src 0 0)) →
  fingerprints (cellTile src 1 0) !! 1%nat = Some (Hash (cellTile src 0 0)).
Proof.
  intros Hrot.
  rewrite <- (Hash_turned_forward _ _ (cellTile_atOrigin src 0 0)
                (cellTile_atOrigin src 1 0) Hrot).
  reflexivity.
Qed.

Lemma quadrants_run (i : nat) src p :
  protoImages p = ∅ →
  fingerprints (cellTile src 1 0) !! i = Some (Hash (cellTile src 0 0)) →
  scenarioDistinct i src →
  runCells src [(0, 0); (1, 0); (0, 1); (1, 1)] (gridState p 2 2) =
    Some (mkImageSet (SourceImagePath p)
            (<[Hash (cellTile src 1 1) := cellTile src 1 1]>
               (<[Hash (cellTile src 0 1) := cellTile src 0 1]>
                  (<[Hash (cellTile src 0 0) := cellTile src 0 0]> ∅)))
            [Hash (cellTile src 0 0); Hash (cellTile src 0 0);
             Hash (cellTile src 0 1); Hash (cellTile src 1 1)]
            [0; Z.of_nat i; 0; 0] 2).
Proof.
  intros Hempty Hmatch (H2 & H3 & H4).
  unfold gridState. rewrite Hempty.
  change (replicate (Z.to_nat (2 * 2)) 0) with [0; 0; 0; 0].
  cbn [runCells].
  set (TL := cellTile src 0 0) in *. set (TR := cellTile src 1 0) in *.
  set (BL := cellTile src 0 1) in *. set (BR := cellTile src 1 1) in *.
  clearbody TL TR BL BR.
  rewrite (AddImage_miss_at _ TL 0 0 0);
    [ | reflexivity | simpl; lia | simpl; lia | intros h _; apply lookup_empty ].
  cbn [SourceImagePath protoImages images orientations stride insert list_insert].
  rewrite (AddImage_hit_at _ TR 1 0 1 i (Hash TL));
    [ | reflexivity | simpl; lia | simpl; lia
      | exact Hmatch
      | cbn [protoImages]; rewrite lookup_insert_eq; eexists; reflexivity
      | intros h' Hin; cbn [protoImages];
        rewrite lookup_insert_ne by (apply not_eq_sym, H2, Hin); apply lookup_empty ].
  cbn [SourceImagePath protoImages images orientations stride insert list_insert].
  rewrite (AddImage_miss_at _ BL 0 1 2);
    [ | reflexivity | simpl; lia | simpl; lia
      | intros h Hin; cbn [protoImages];
        rewrite lookup_insert_ne by (apply not_eq_sym, H3, Hin); apply lookup_empty ].
  cbn [SourceImagePath protoImages images orientations stride insert list_insert].
  rewrite (AddImage_miss_at _ BR 1 1 3);
    [ | reflexivity | simpl; lia | simpl; lia
      | intros h Hin; cbn [protoImages]; destruct (H4 h Hin) as [HTL HBL];
        rewrite !lookup_insert_ne by (apply not_eq_sym; assumption);
        apply lookup_empty ].
  cbn [SourceImagePath protoImages images orientations stride insert list_insert].
  reflexivity.
Qed.

Lemma scenario_process (i : nat) p w src :
  files w (SourceImagePath p) = Decoded src →
  protoImages p = ∅ →
  image.Bounds src = image.Rect 0 0 256 256 →
  fingerprints (cellTile src 1 0) !! i = Some (Hash (cellTile src 0 0)) →
  scenarioDistinct i src →
  ∃ w',
    Process p w =
      Some (mkImageSet (SourceImagePath p)
              (<[Hash (cellTile src 1 1) := cellTile src 1 1]>
                 (<[Hash (cellTile src 0 1) := cellTile src 0 1]>
                    (<[Hash (cellTile src 0 0) := cellTile src 0 0]> ∅)))
              [Hash (cellTile src 0 0); Hash (cellTile src 0 0);
               Hash (cellTile src 0 1); Hash (cellTile src 1 1)]
              [0; Z.of_nat i; 0; 0] 2, w').
Proof.
  intros Hfile Hempty Hbounds Hrot Hdistinct.
  assert (Hwf : image.wf src).
  { unfold image.wf. rewrite Hbounds. unfold image.Dx, image.Dy. simpl. lia. }
  destruct (Process_run p w src Hfile Hwf) as (p' & w' & HP & Hrun).
  rewrite Hbounds in Hrun.
  change (image.Dx (image.Rect 0 0 256 256) `div` 128) with 2 in Hrun.
  change (image.Dy (image.Rect 0 0 256 256) `div` 128) with 2 in Hrun.
  change (cellOrder 2 2) with [(0, 0); (1, 0); (0, 1); (1, 1)] in Hrun.
  rewrite (quadrants_run i src p Hempty Hrot Hdistinct) in Hrun.
  symmetry in Hrun. apply (inj Some) in Hrun. subst p'. exists w'. exact HP.
Qed.

Lemma scenario_registry_size (i : nat) src :
  scenarioDistinct i src →
  size (<[Hash (cellTile src 1 1) := cellTile src 1 1]>
          (<[Hash (cellTile src 0 1) := cellTile src 0 1]>
             (<[Hash (cellTile src 0 0) := cellTile src 0 0]>
                (∅ : gmap Z image.Image)))) = 3%nat.
Proof.
  intros (_ & H3 & H4).
  assert (HBL : Hash (cellTile src 0 1) ∈ fingerprints (cellTile src 0 1)) by left.
  assert (HBR : Hash (cellTile src 1 1) ∈ fingerprints (cellTile src 1 1)) by left.
  apply H3 in HBL. apply H4 in HBR as [HBR1 HBR2].
  set (TL := cellTile src 0 0) in *. set (BL := cellTile src 0 1) in *.
  set (BR := cellTile src 1 1) in *. clearbody TL BL BR.
  rewrite !map_size_insert_None, map_size_empty; [reflexivity|..].
  - apply lookup_empty.
  - rewrite lookup_insert_ne by done. apply lookup_empty.
  - rewrite !lookup_insert_ne by done. apply lookup_empty.
Qed.

(** C3 (amended): on a source of 256 by 256 pixels whose top-right quadrant
    is the top-left quadrant turned by [imaging.Rotate90], and in which no
    fingerprint collides, [Process] on a fresh registry ends with four cell
    records and three registry entries; cells (0,0), (0,1) and (1,1) get
    orientation 0 and cell (1,0) gets orientation 3, labelled
    "Rotated 270 degrees": the index of the variant of the cell's own tile
    that is the prototype. *)
Theorem rotated_quadrant_scenario p w src :
  files w (SourceImagePath p) = Decoded src →
  protoImages p = ∅ →
  image.Bounds src = image.Rect 0 0 256 256 →
  image.same (cellTile src 1 0) (imaging.Rotate90 (cellTile src 0 0)) →
  scenarioDistinct 3 src →
  ∃ p' w',
    Process p w = Some (p', w')
    ∧ length (images p') = 4%nat
    ∧ length (orientations p') = 4%nat
    ∧ size (protoImages p') = 3%nat
    ∧ orientations p' = [0; 3; 0; 0]
    ∧ images p' = [Hash (cellTile src 0 0); Hash (cellTile src 0 0);
                   Hash (cellTile src 0 1); Hash (cellTile src 1 1)]
    ∧ GetOrientationLabel 3 = "Rotated 270 degrees".
Proof.
  intros Hfile Hempty Hbounds Hrot Hdistinct.
  destruct (scenario_process 3 p w src Hfile Hempty Hbounds
              (turned_back_match src Hrot) Hdistinct) as [w' HP].
  eexists _, w'. split; [exact HP|]. cbn [images orientations protoImages].
  split; [reflexivity|]. split; [reflexivity|].
  split; [exact (scenario_registry_size 3 src Hdistinct)|].
  split; [reflexivity|]. split; reflexivity.
Qed.

(** The concrete source [quadrantSource]. *)

Lemma quadrantSource_rotated :
  image.same (cellTile quadrantSource 1 0) (imaging.Rotate90 (cellTile quadrantSource 0 0)).
Proof. apply sameb_same. vm_cast_no_check (eq_refl true). Qed.

Lemma quadrantSource_distinct : scenarioDistinct 3 quadrantSource.
Proof. apply scenarioDistinctb_spec. vm_cast_no_check (eq_refl true). Qed.

Ltac by_evaluation := apply (bool_decide_unpack _); vm_compute; exact I.

Ltac pixel_differs x y :=
  apply (differ_at _ _ x y);
  [ unfold image.inside; by_evaluation
  | let H := fresh in intros H; vm_compute in H; discriminate H ].

Lemma quadrantSource_premise : scenarioPremise quadrantSource.
Proof.
  split; [reflexivity|]. split; [exact quadrantSource_rotated|]. split.
  - intros v Hv. unfold variants in Hv.
    repeat (apply elem_of_cons in Hv as [->|Hv]); try (by apply elem_of_nil in Hv);
      (split; [pixel_differs 0 0 | pixel_differs 0 127]).
  - intros v Hv. unfold variants in Hv.
    repeat (apply elem_of_cons in Hv as [->|Hv]); try (by apply elem_of_nil in Hv);
      (split; [pixel_differs 0 0 | split; [pixel_differs 0 127 | pixel_differs 0 0]]).
Qed.

Lemma rotated_quadrant_scenario_witness :
  ∃ p' w',
    Process (NewImageSet "tiles.png") (worldWith quadrantSource) = Some (p', w')
    ∧ length (images p') = 4%nat
    ∧ length (orientations p') = 4%nat
    ∧ size (protoImages p') = 3%nat
    ∧ orientations p' = [0; 3; 0; 0]
    ∧ images p' = [Hash (cellTile quadrantSource 0 0); Hash (cellTile quadrantSource 0 0);
                   Hash (cellTile quadrantSource 0 1); Hash (cellTile quadrantSource 1 1)]
    ∧ GetOrientationLabel 3 = "Rotated 270 degrees".
Proof.
  apply (rotated_quadrant_scenario (NewImageSet "tiles.png") (worldWith quadrantSource)
           quadrantSource).
  - reflexivity.
  - reflexivity.
  - reflexivity.
  - exact quadrantSource_rotated.
  - exact quadrantSource_distinct.
Defined.

(** C3 (as stated) fails on [quadrantSource]: the premise of the scenario
    holds there, [Process] ends with the orientations 0, 3, 0, 0, and so the
    outcome that the spec states, with orientation 1 for cell (1,0), does
    not hold. *)
Lemma rotated_quadrant_counterexample :
  scenarioPremise quadrantSource
  ∧ (∃ p' w',
       Process (NewImageSet "tiles.png") (worldWith quadrantSource) = Some (p', w')
       ∧ orientations p' = [0; 3; 0; 0])
  ∧ ¬ scenarioClaim quadrantSource.
Proof.
  destruct (scenario_process 3 (NewImageSet "tiles.png") (worldWith quadrantSource)
              quadrantSource eq_refl eq_refl eq_refl
              (turned_back_match _ quadrantSource_rotated)
              quadrantSource_distinct) as [w'' HP'].
  split; [exact quadrantSource_premise|]. split.
  - eexists _, w''. split; [exact HP'|]. reflexivity.
  - intros Hclaim.
    destruct (Hclaim quadrantSource_premise) as (p' & w' & HP & _ & _ & Ho).
    rewrite HP' in HP.
    apply (f_equal (λ r, match r with Some (q, _) => orientations q | None => [] end))
      in HP.
    cbn [orientations] in HP. rewrite Ho in HP. discriminate HP.
Qed.

(** The other direction: when the top-right quadrant is the top-left one
    turned by [imaging.Rotate270], cell (1,0) gets orientation 1. *)
Lemma turned_other_way_scenario p w src :
  files w (SourceImagePath p) = Decoded src →
  protoImages p = ∅ →
  image.Bounds src = image.Rect 0 0 256 256 →
  image.same (cellTile src 1 0) (imaging.Rotate270 (cellTile src 0 0)) →
  scenarioDistinct 1 src →
  ∃ p' w',
    Process p w = Some (p', w')
    ∧ length (images p') = 4%nat
    ∧ size (protoImages p') = 3%nat
    ∧ orientations p' = [0; 1; 0; 0].
Proof.
  intros Hfile Hempty Hbounds Hrot Hdistinct.
  destruct (scenario_process 1 p w src Hfile Hempty Hbounds
              (turned_forward_match src Hrot) Hdistinct) as [w' HP].
  eexists _, w'. split; [exact HP|]. cbn [images orientations protoImages].
  split; [reflexivity|].
  split; [exact (scenario_registry_size 1 src Hdistinct)|]. reflexivity.
Qed.

Lemma clockwiseSource_rotated :
  image.same (cellTile clockwiseSource 1 0)
    (imaging.Rotate270 (cellTile clockwiseSource 0 0)).
Proof. apply sameb_same. vm_cast_no_check (eq_refl true). Qed.

Lemma clockwiseSource_distinct : scenarioDistinct 1 clockwiseSource.
Proof. apply scenarioDistinctb_spec. vm_cast_no_check (eq_refl true). Qed.

Lemma clockwiseSource_orientations :
  ∃ p' w',
    Process (NewImageSet "tiles.png") (worldWith clockwiseSource) = Some (p', w')
    ∧ length (images p') = 4%nat
    ∧ size (protoImages p') = 3%nat
    ∧ orientations p' = [0; 1; 0; 0].
Proof.
  apply (turned_other_way_scenario (NewImageSet "tiles.png") (worldWith clockwiseSource)
           clockwiseSource eq_refl eq_refl eq_refl clockwiseSource_rotated
           clockwiseSource_distinct).
Qed.

(** * Further properties of the code *)

(** ** [AddImage] *)

(** X1: [AddImage] panics exactly when the cell index [y * stride + x] lies
    outside the [images] or the [orientations] array; on a set made by
    [NewImageSet], whose arrays are empty, every call panics. *)
Theorem AddImage_panics_outside p img x y :
  (AddImage p img x y = None
   ↔ ¬ (0 ≤ y * stride p + x < Z.of_nat (length (images p))
        ∧ 0 ≤ y * stride p + x < Z.of_nat (length (orientations p))))
  ∧ AddImage (NewImageSet (SourceImagePath p)) img x y = None.
Proof.
  assert (Hgen : ∀ q, AddImage q img x y = None
            ↔ ¬ (0 ≤ y * stride q + x < Z.of_nat (length (images q))
                 ∧ 0 ≤ y * stride q + x < Z.of_nat (length (orientations q)))).
  { intros q. rewrite AddImage_resolveCell. unfold resolveCell, store.
    destruct (list_find _ _) as [[i h]|]; repeat case_decide; simpl;
      split; (done || tauto || (intros H; exfalso; apply H; done)). }
  split; [apply Hgen|]. apply Hgen. simpl. lia.
Qed.

(** X2: a successful call of [AddImage] writes cell [y * stride + x] of the
    two arrays and nothing else: path, stride and array lengths stay, and
    every other cell keeps its fingerprint and its orientation code. *)
Theorem AddImage_writes_one_cell p img x y p' :
  AddImage p img x y = Some p' →
  SourceImagePath p' = SourceImagePath p
  ∧ stride p' = stride p
  ∧ length (images p') = length (images p)
  ∧ length (orientations p') = length (orientations p)
  ∧ ∀ n : nat, n ≠ Z.to_nat (y * stride p + x) →
      images p' !! n = images p !! n ∧ orientations p' !! n = orientations p !! n.
Proof.
  intros H. destruct (AddImage_shape _ _ _ _ _ H) as (Hp & Hs & Hi & Ho).
  do 4 (split; [done|]). intros n Hn.
  destruct (AddImage_inv _ _ _ _ _ H) as (_ & _ & _ & _ & Hcase).
  destruct Hcase as [(i & h & _ & _ & _ & _ & -> & ->) | (_ & _ & -> & ->)];
    rewrite !list_lookup_insert_ne by done; done.
Qed.

Lemma AddImage_writes_one_cell_witness :
  let p := oneCell {[ Hash (plain 1 1 grey) := plain 1 1 grey ]} in
  let p' := mkImageSet "tiles.png"
              (<[Hash (plain 1 1 ink) := plain 1 1 ink]>
                 {[ Hash (plain 1 1 grey) := plain 1 1 grey ]})
              [Hash (plain 1 1 ink)] [0] 1 in
  SourceImagePath p' = SourceImagePath p
  ∧ stride p' = stride p
  ∧ length (images p') = length (images p)
  ∧ length (orientations p') = length (orientations p)
  ∧ ∀ n : nat, n ≠ Z.to_nat (0 * stride p + 0) →
      images p' !! n = images p !! n ∧ orientations p' !! n = orientations p !! n.
Proof.
  apply (AddImage_writes_one_cell
           (oneCell {[ Hash (plain 1 1 grey) := plain 1 1 grey ]}) (plain 1 1 ink) 0 0).
  rewrite AddImage_resolveCell. vm_compute. reflexivity.
Defined.

(** X3: [AddImage] is idempotent: after a successful call, the same call
    again returns the state it is given.  A tile that was just registered
    is found again at index 0, and a tile that matched matches the same
    prototype at the same index. *)
Theorem AddImage_idempotent p img x y p' :
  AddImage p img x y = Some p' → AddImage p' img x y = Some p'.
Proof.
  rewrite !AddImage_resolveCell. unfold resolveCell.
  destruct (list_find _ (fingerprints img)) as [[i h]|] eqn:Hfind.
  - destruct (store (orientations p) _ _) as [os|] eqn:Hos; [|done].
    destruct (store (images p) _ _) as [hs|] eqn:Hhs; [|done].
    cbn [mbind option_bind]. intros [= <-].
    cbn [protoImages stride orientations images SourceImagePath].
    rewrite Hfind.
    apply store_inv in Hos as [Hio ->]. apply store_inv in Hhs as [Hih ->].
    rewrite !store_Some by (rewrite length_insert; done).
    rewrite !list_insert_insert_eq. reflexivity.
  - destruct (store (images p) _ _) as [hs|] eqn:Hhs; [|done].
    destruct (store (orientations p) _ _) as [os|] eqn:Hos; [|done].
    cbn [mbind option_bind]. intros [= <-].
    cbn [protoImages stride orientations images SourceImagePath].
    assert (Hagain : list_find (λ h, is_Some (<[Hash img := img]> (protoImages p) !! h))
                       (fingerprints img) = Some (0%nat, Hash img)).
    { apply list_find_Some. split; [reflexivity|]. split.
      - rewrite lookup_insert_eq. eauto.
      - intros j ? _ Hj. lia. }
    rewrite Hagain.
    apply store_inv in Hos as [Hio ->]. apply store_inv in Hhs as [Hih ->].
    rewrite !store_Some by (rewrite length_insert; done).
    rewrite !list_insert_insert_eq. reflexivity.
Qed.

Lemma AddImage_idempotent_witness :
  AddImage
    (mkImageSet "tiles.png"
       (<[Hash (plain 1 1 ink) := plain 1 1 ink]>
          {[ Hash (plain 1 1 grey) := plain 1 1 grey ]})
       [Hash (plain 1 1 ink)] [0] 1)
    (plain 1 1 ink) 0 0
  = Some (mkImageSet "tiles.png"
            (<[Hash (plain 1 1 ink) := plain 1 1 ink]>
               {[ Hash (plain 1 1 grey) := plain 1 1 grey ]})
            [Hash (plain 1 1 ink)] [0] 1).
Proof.
  apply (AddImage_idempotent
           (oneCell {[ Hash (plain 1 1 grey) := plain 1 1 grey ]}) (plain 1 1 ink) 0 0).
  rewrite AddImage_resolveCell. vm_compute. reflexivity.
Defined.

(** ** [GetX], [GetY] *)

(** X4: [GetX] and [GetY] panic (integer division by zero) exactly when
    the stride is 0; otherwise they split an index into a column and a row
    with [row * stride + column = index], and they give back the column and
    the row of every cell of the grid. *)
Theorem GetX_GetY_roundtrip p index :
  (stride p = 0 → GetX p index = None ∧ GetY p index = None)
  ∧ (stride p ≠ 0 →
     ∃ col row, GetX p index = Some col ∧ GetY p index = Some row
                ∧ row * stride p + col = index)
  ∧ (∀ x y, 0 ≤ x < stride p → 0 ≤ y →
            GetX p (y * stride p + x) = Some x ∧ GetY p (y * stride p + x) = Some y).
Proof.
  unfold GetX, GetY. split; [|split].
  - intros H0. rewrite !decide_True by done. done.
  - intros Hne. rewrite !decide_False by done. eexists _, _.
    split; [reflexivity|]. split; [reflexivity|].
    rewrite Z.mul_comm. symmetry. apply Z.quot_rem'.
  - intros x y Hx Hy. rewrite !decide_False by lia.
    assert (0 ≤ y * stride p + x) by nia.
    rewrite Z.rem_mod_nonneg, Z.quot_div_nonneg by lia.
    rewrite Z.add_comm, Z.mod_add, Z.div_add by lia.
    rewrite Z.mod_small, Z.div_small by lia. split; f_equal; lia.
Qed.

(** ** The grid of [Process] *)

Lemma Process_decoded p w src :
  files w (SourceImagePath p) = Decoded src →
  image.wf src →
  let numX := image.Dx (image.Bounds src) `div` 128 in
  let numY := image.Dy (image.Bounds src) `div` 128 in
  Process p w =
    (p' ← runCells src (cellOrder numX numY) (gridState p numX numY);
     w' ← WriteReport p' (image.Bounds src) (WriteImageFiles p' w);
     Some (p', w')).
Proof.
  intros Hfile [Hx Hy] numX numY.
  unfold Process, getSourceImage. rewrite Hfile.
  rewrite calculateNumberImages_div by done. fold numX numY.
  assert (0 ≤ numX) by (apply Z.div_pos; lia).
  assert (0 ≤ numY) by (apply Z.div_pos; lia).
  rewrite !make_Some by lia. cbn [mbind option_bind].
  change (mkImageSet _ _ _ _ numX) with (gridState p numX numY).
  rewrite extractLoop_runCells. reflexivity.
Qed.

Lemma cellOrder_length numX numY :
  length (cellOrder numX numY) = (Z.to_nat numY * Z.to_nat numX)%nat.
Proof.
  unfold cellOrder.
  rewrite (length_grid (λ x y, (x, y)) (seqZ 0 numY) (seqZ 0 numX)), !length_seqZ.
  reflexivity.
Qed.

Lemma Rect_ordered (x0 y0 x1 y1 : Z) :
  x0 ≤ x1 → y0 ≤ y1 →
  image.Rect x0 y0 x1 y1 = image.mkRectangle (image.mkPoint x0 y0) (image.mkPoint x1 y1).
Proof.
  intros Hx Hy. unfold image.Rect. rewrite !decide_False by lia. reflexivity.
Qed.

Lemma Intersect_inside r s :
  image.X (image.Min s) ≤ image.X (image.Min r) →
  image.Y (image.Min s) ≤ image.Y (image.Min r) →
  image.X (image.Max r) ≤ image.X (image.Max s) →
  image.Y (image.Max r) ≤ image.Y (image.Max s) →
  image.X (image.Min r) < image.X (image.Max r) →
  image.Y (image.Min r) < image.Y (image.Max r) →
  image.Intersect r s = r.
Proof.
  destruct r as [[rx0 ry0] [rx1 ry1]], s as [[sx0 sy0] [sx1 sy1]]. simpl. intros.
  unfold image.Intersect. simpl. rewrite !Z.max_l, !Z.min_l by lia.
  unfold image.Empty. simpl. rewrite bool_decide_eq_false_2 by lia. reflexivity.
Qed.

(** The crop of a non-empty rectangle inside a source at the origin. *)
Lemma Crop_inside img x0 y0 x1 y1 :
  atOrigin img →
  0 ≤ x0 < x1 → 0 ≤ y0 < y1 →
  x1 ≤ image.X (image.Max (image.Bounds img)) →
  y1 ≤ image.Y (image.Max (image.Bounds img)) →
  imaging.Crop img (image.mkRectangle (image.mkPoint x0 y0) (image.mkPoint x1 y1))
  = image.mkImage
      (image.mkRectangle (image.mkPoint 0 0) (image.mkPoint (x1 - x0) (y1 - y0)))
      (λ x y, image.At img (0 + (x0 + x)) (0 + (y0 + y))).
Proof.
  intros [Hmin _] Hx Hy Hx1 Hy1. unfold imaging.Crop.
  rewrite Intersect_inside by (rewrite ?Hmin; simpl; lia).
  rewrite Hmin. unfold image.Sub, image.Empty. simpl. rewrite !Z.sub_0_r.
  rewrite bool_decide_eq_false_2 by lia.
  unfold imaging.NewNRGBA, image.Dx, image.Dy, imaging.px. simpl.
  rewrite Hmin, Rect_origin by lia. reflexivity.
Qed.

(** X5: every rectangle that [Process] cuts lies inside a source whose
    bounds start at the origin, so every tile handed to [AddImage] has
    exactly 128 by 128 pixels, and its pixel [(x', y')] is the pixel
    [(x * 128 + x', y * 128 + y')] of the source. *)
Theorem cellTile_geometry src x y :
  atOrigin src →
  (x, y) ∈ cellOrder (calculateNumberImages (image.Bounds src)).1
                     (calculateNumberImages (image.Bounds src)).2 →
  image.Bounds (cellTile src x y) = image.Rect 0 0 128 128
  ∧ ∀ x' y', 0 ≤ x' < 128 → 0 ≤ y' < 128 →
      image.At (cellTile src x y) x' y' = image.At src (x * 128 + x') (y * 128 + y').
Proof.
  destruct src as [[[x0 y0] [x1 y1]] at_src].
  unfold atOrigin, image.wf, image.Dx, image.Dy. simpl.
  intros [[= -> ->] [Hw Hh]]. rewrite Z.sub_0_r in *.
  unfold calculateNumberImages, calculateStride. simpl. rewrite !Z.sub_0_r.
  rewrite !Z.quot_div_nonneg by lia. intros [Hx Hy]%elem_of_cellOrder.
  assert (Hx1 : (x + 1) * 128 ≤ x1).
  { pose proof (Z.mul_div_le x1 128). nia. }
  assert (Hy1 : (y + 1) * 128 ≤ y1).
  { pose proof (Z.mul_div_le y1 128). nia. }
  unfold cellTile.
  rewrite (Rect_ordered (x * 128) (y * 128) ((x + 1) * 128) ((y + 1) * 128)) by lia.
  rewrite Crop_inside;
    [ | split; [reflexivity | unfold image.wf, image.Dx, image.Dy; simpl; lia]
      | lia | lia | simpl; lia | simpl; lia ].
  cbn [image.Bounds image.At]. rewrite Rect_origin by lia. split.
  - do 2 f_equal; lia.
  - intros x' y' _ _. f_equal; lia.
Qed.

Lemma cellTile_geometry_witness :
  image.Bounds (cellTile (plain 300 200 grey) 1 0) = image.Rect 0 0 128 128
  ∧ ∀ x' y', 0 ≤ x' < 128 → 0 ≤ y' < 128 →
      image.At (cellTile (plain 300 200 grey) 1 0) x' y'
      = image.At (plain 300 200 grey) (1 * 128 + x') (0 * 128 + y').
Proof.
  apply (cellTile_geometry (plain 300 200 grey) 1 0).
  - apply NewNRGBA_atOrigin; lia.
  - apply elem_of_cellOrder. vm_compute. repeat split; discriminate || reflexivity.
Defined.

(** ** What the extraction pass keeps *)

Lemma AddImage_codes p img x y p' :
  Forall (λ o, 0 ≤ o ≤ 7) (orientations p) →
  AddImage p img x y = Some p' →
  Forall (λ o, 0 ≤ o ≤ 7) (orientations p').
Proof.
  intros Hall H. destruct (AddImage_inv _ _ _ _ _ H) as (_ & _ & _ & _ & Hcase).
  destruct Hcase as [(i & h & _ & _ & Hi & _ & _ & ->) | (_ & _ & _ & ->)];
    apply Forall_insert; (done || lia).
Qed.

Lemma runCells_codes src cells p p' :
  Forall (λ o, 0 ≤ o ≤ 7) (orientations p) →
  runCells src cells p = Some p' →
  Forall (λ o, 0 ≤ o ≤ 7) (orientations p').
Proof.
  revert p. induction cells as [|[x y] cells IH]; intros p Hall; simpl.
  - intros [= ->]. done.
  - destruct (AddImage p (cellTile src x y) x y) as [p1|] eqn:H1; [|done].
    apply IH. eapply AddImage_codes; done.
Qed.

Lemma label_of_code o :
  0 ≤ o ≤ 7 → orientationLabels !! Z.to_nat o = Some (GetOrientationLabel o).
Proof.
  intros Ho.
  assert (Hcases : o = 0 ∨ o = 1 ∨ o = 2 ∨ o = 3 ∨ o = 4 ∨ o = 5 ∨ o = 6 ∨ o = 7) by lia.
  destruct Hcases as [H|[H|[H|[H|[H|[H|[H|H]]]]]]]; subst o; reflexivity.
Qed.

(** X6: every orientation code that a run of [Process] leaves in the
    [orientations] array lies between 0 and 7, and the label printed for it
    is the entry of the label table at that code. *)
Theorem Process_orientation_codes p w src :
  files w (SourceImagePath p) = Decoded src →
  image.wf src →
  ∃ p' w',
    Process p w = Some (p', w')
    ∧ ∀ o, o ∈ orientations p' →
        0 ≤ o ≤ 7 ∧ orientationLabels !! Z.to_nat o = Some (GetOrientationLabel o).
Proof.
  intros Hfile Hwf.
  destruct (Process_run p w src Hfile Hwf) as (p' & w' & HP & Hrun).
  exists p', w'. split; [done|].
  assert (Hall : Forall (λ o, 0 ≤ o ≤ 7) (orientations p')).
  { eapply runCells_codes; [|exact Hrun]. simpl. apply Forall_replicate. lia. }
  intros o Ho. rewrite Forall_forall in Hall. specialize (Hall o Ho).
  split; [done|]. by apply label_of_code.
Qed.

Lemma Process_orientation_codes_witness :
  ∃ p' w',
    Process (NewImageSet "tiles.png") (worldWith (plain 300 200 grey)) = Some (p', w')
    ∧ ∀ o, o ∈ orientations p' →
        0 ≤ o ≤ 7 ∧ orientationLabels !! Z.to_nat o = Some (GetOrientationLabel o).
Proof.
  apply (Process_orientation_codes (NewImageSet "tiles.png")
           (worldWith (plain 300 200 grey)) (plain 300 200 grey)).
  - reflexivity.
  - apply NewNRGBA_wf; lia.
Defined.

Lemma AddImage_size p img x y p' :
  AddImage p img x y = Some p' →
  (size (protoImages p') ≤ S (size (protoImages p)))%nat.
Proof.
  intros H. destruct (AddImage_inv _ _ _ _ _ H) as (_ & _ & _ & _ & Hcase).
  destruct Hcase as [(i & h & _ & _ & _ & -> & _) | (Hnone & -> & _)]; [lia|].
  rewrite map_size_insert_None by done. lia.
Qed.

Lemma runCells_size src cells p p' :
  runCells src cells p = Some p' →
  protoImages p ⊆ protoImages p'
  ∧ (size (protoImages p') ≤ size (protoImages p) + length cells)%nat.
Proof.
  revert p. induction cells as [|[x y] cells IH]; intros p; simpl.
  - intros [= ->]. split; [done|lia].
  - destruct (AddImage p (cellTile src x y) x y) as [p1|] eqn:H1; [|done].
    intros Hrun. destruct (IH _ Hrun) as [Hsub Hsize].
    pose proof (AddImage_registry_subseteq _ _ _ _ _ H1).
    pose proof (AddImage_size _ _ _ _ _ H1).
    split; [etrans; done | lia].
Qed.

(** X7: a run of [Process] only adds prototypes, at most one per grid cell:
    the registry it was given is contained in the registry it leaves, which
    has at most as many additional entries as there are cell records; from
    the empty registry of [NewImageSet] there are never more prototypes than
    cells. *)
Theorem Process_registry_bound p w src :
  files w (SourceImagePath p) = Decoded src →
  image.wf src →
  ∃ p' w',
    Process p w = Some (p', w')
    ∧ protoImages p ⊆ protoImages p'
    ∧ (size (protoImages p') ≤ size (protoImages p) + length (images p'))%nat
    ∧ (protoImages p = ∅ → (size (protoImages p') ≤ length (images p'))%nat).
Proof.
  intros Hfile Hwf.
  destruct (Process_run p w src Hfile Hwf) as (p' & w' & HP & Hrun).
  exists p', w'. split; [done|].
  destruct (runCells_size _ _ _ _ Hrun) as [Hsub Hsize].
  destruct (runCells_shape _ _ _ _ Hrun) as (_ & _ & Hi & _).
  rewrite cellOrder_length in Hsize. simpl in Hi, Hsub, Hsize.
  rewrite length_replicate in Hi.
  destruct Hwf as [Hx Hy].
  assert (0 ≤ image.Dx (image.Bounds src) `div` 128) by (apply Z.div_pos; lia).
  assert (0 ≤ image.Dy (image.Bounds src) `div` 128) by (apply Z.div_pos; lia).
  assert (Hlen : length (images p')
                 = (Z.to_nat (image.Dy (image.Bounds src) `div` 128)
                    * Z.to_nat (image.Dx (image.Bounds src) `div` 128))%nat)
    by (rewrite Hi; lia).
  split; [done|]. split; [lia|].
  intros Hempty. rewrite Hempty, map_size_empty in Hsize. lia.
Qed.

Lemma Process_registry_bound_witness :
  ∃ p' w',
    Process (NewImageSet "tiles.png") (worldWith (plain 300 200 grey)) = Some (p', w')
    ∧ protoImages (NewImageSet "tiles.png") ⊆ protoImages p'
    ∧ (size (protoImages p')
       ≤ size (protoImages (NewImageSet "tiles.png")) + length (images p'))%nat
    ∧ (protoImages (NewImageSet "tiles.png") = ∅ →
       (size (protoImages p') ≤ length (images p'))%nat).
Proof.
  apply (Process_registry_bound (NewImageSet "tiles.png")
           (worldWith (plain 300 200 grey)) (plain 300 200 grey)).
  - reflexivity.
  - apply NewNRGBA_wf; lia.
Defined.

(** ** [WriteImageFiles] and [WriteReport] *)

Lemma writePngs_fold w entries :
  fold_left
    (λ w kv, if canCreate w (ImageFile kv.1) then emit (ImagePng kv.1 kv.2) w else w)
    entries w
  = mkWorld (files w) (canCreate w) (stderr w) (written w ++ pngFiles w entries).
Proof.
  revert w. induction entries as [|[k v] entries IH]; intros w.
  - unfold pngFiles. simpl. rewrite app_nil_r. by destruct w.
  - cbn [fold_left]. rewrite IH. unfold pngFiles. cbn [omap list_omap fst snd].
    destruct (canCreate w (ImageFile k)) eqn:Hk; cbn [emit files canCreate stderr written].
    + rewrite <- app_assoc. reflexivity.
    + reflexivity.
Qed.

(** X8: [WriteImageFiles] appends to what was written before: the directory
    when it can be made (a diagnostic on the standard error stream when it
    cannot, and the pass goes on all the same), then exactly one picture
    file for every registry entry whose file can be created, holding the
    prototype stored under that fingerprint; no file is written for a
    fingerprint that is not a key of the registry. *)
Theorem WriteImageFiles_writes_registry p w :
  ∃ pngs,
    written (WriteImageFiles p w)
      = written w ++ (if canCreate w ImagesDir then [Directory] else []) ++ pngs
    ∧ stderr (WriteImageFiles p w)
      = stderr w ++ (if canCreate w ImagesDir then [] else [MkdirError])
    ∧ files (WriteImageFiles p w) = files w
    ∧ canCreate (WriteImageFiles p w) = canCreate w
    ∧ (length pngs ≤ size (protoImages p))%nat
    ∧ ∀ a, a ∈ pngs ↔
        ∃ k v, a = ImagePng k v ∧ protoImages p !! k = Some v
               ∧ canCreate w (ImageFile k) = true.
Proof.
  unfold WriteImageFiles. rewrite writePngs_fold.
  set (w1 := if canCreate w ImagesDir then emit Directory w else warn MkdirError w).
  assert (Hcan : canCreate w1 = canCreate w) by (unfold w1; by destruct (canCreate w _)).
  exists (pngFiles w (map_to_list (protoImages p))).
  cbn [written stderr files canCreate].
  assert (Hpng : pngFiles w1 (map_to_list (protoImages p))
                 = pngFiles w (map_to_list (protoImages p))).
  { unfold pngFiles. rewrite Hcan. reflexivity. }
  rewrite Hpng. split; [|split; [|split; [|split; [|split]]]].
  - unfold w1. destruct (canCreate w ImagesDir); simpl; rewrite <- ?app_assoc;
      rewrite ?app_nil_r; reflexivity.
  - unfold w1. destruct (canCreate w ImagesDir); simpl; rewrite ?app_nil_r; reflexivity.
  - unfold w1. by destruct (canCreate w ImagesDir).
  - exact Hcan.
  - unfold pngFiles. rewrite <- length_map_to_list.
    generalize (map_to_list (protoImages p)). intros l.
    induction l as [|kv l IH]; [done|]. cbn [omap list_omap].
    destruct (canCreate w (ImageFile kv.1)); simpl in *; lia.
  - intros a. unfold pngFiles. rewrite list_elem_of_omap. split.
    + intros ([k v] & Hin & Hf). apply elem_of_map_to_list in Hin. simpl in Hf.
      destruct (canCreate w (ImageFile k)) eqn:Hk; [|done].
      injection Hf as <-. eauto.
    + intros (k & v & -> & Hkv & Hk). exists (k, v). split.
      * by apply elem_of_map_to_list.
      * simpl. rewrite Hk. reflexivity.
Qed.

Lemma reportRows_spec p vs : ∀ (i : nat) rs,
  reportRows p (Z.of_nat i) vs = Some rs →
  length rs = length vs
  ∧ ∀ (j : nat) v, vs !! j = Some v →
      stride p ≠ 0
      ∧ ∃ o, orientations p !! (i + j)%nat = Some o
             ∧ rs !! j = Some (Z.rem (Z.of_nat (i + j)) (stride p),
                               Z.quot (Z.of_nat (i + j)) (stride p),
                               v, GetOrientationLabel o).
Proof.
  induction vs as [|v vs IH]; intros i rs; cbn [reportRows].
  - intros [= <-]. split; [done|]. intros j v Hj. done.
  - unfold GetX, GetY. case_decide as Hs; [done|]. cbn [mbind option_bind].
    rewrite Nat2Z.id.
    destruct (orientations p !! i) as [o|] eqn:Ho; [|done]. cbn [mbind option_bind].
    replace (Z.of_nat i + 1) with (Z.of_nat (S i)) by lia.
    destruct (reportRows p (Z.of_nat (S i)) vs) as [rest|] eqn:Hrest; [|done].
    cbn [mbind option_bind]. intros [= <-].
    destruct (IH _ _ Hrest) as [Hlen Hrows]. split; [simpl; lia|].
    intros [|j] v' Hj.
    + injection Hj as <-. split; [done|]. exists o. rewrite Nat.add_0_r. done.
    + destruct (Hrows j v' Hj) as [_ (o' & Ho' & Hr)]. split; [done|].
      exists o'. replace (i + S j)%nat with (S i + j)%nat by lia. done.
Qed.

(** X9: when the report file can be created and [WriteReport] returns, it
    has written one report and nothing else: the report counts the cells
    and the prototypes, and its table has one row per cell, in cell order;
    row [i] holds the column [i % stride], the row [i / stride], the
    fingerprint [images[i]] and the label of [orientations[i]]. *)
Theorem WriteReport_rows p bounds w w' :
  canCreate w ReportFile = true →
  WriteReport p bounds w = Some w' →
  ∃ r,
    w' = emit (ReportHtml r) w
    ∧ srcHeight r = image.Dy bounds ∧ srcWidth r = image.Dx bounds
    ∧ textureCells r = Z.of_nat (length (images p))
    ∧ uniqueTextures r = Z.of_nat (size (protoImages p))
    ∧ length (rows r) = length (images p)
    ∧ ∀ (i : nat) v, images p !! i = Some v →
        ∃ o, orientations p !! i = Some o
             ∧ rows r !! i = Some (Z.rem (Z.of_nat i) (stride p),
                                   Z.quot (Z.of_nat i) (stride p),
                                   v, GetOrientationLabel o).
Proof.
  intros Hcan. unfold WriteReport. rewrite Hcan.
  destruct (reportRows p 0 (images p)) as [rs|] eqn:Hrs; [|done].
  cbn [mbind option_bind]. intros [= <-].
  destruct (reportRows_spec p (images p) 0 rs Hrs) as [Hlen Hrows].
  eexists. split; [reflexivity|]. cbn [srcHeight srcWidth textureCells uniqueTextures rows].
  do 4 (split; [reflexivity|]). split; [done|].
  intros i v Hi. destruct (Hrows i v Hi) as [_ Hrow]. exact Hrow.
Qed.

Lemma WriteReport_rows_witness :
  ∃ r,
    emit (ReportHtml (mkReport 1 1 1 0 [(0, 0, 5, "Standard")])) (worldWith (plain 1 1 grey))
      = emit (ReportHtml r) (worldWith (plain 1 1 grey))
    ∧ srcHeight r = image.Dy (image.Rect 0 0 1 1)
    ∧ srcWidth r = image.Dx (image.Rect 0 0 1 1)
    ∧ textureCells r = Z.of_nat (length (images (mkImageSet "tiles.png" ∅ [5] [0] 1)))
    ∧ uniqueTextures r
      = Z.of_nat (size (protoImages (mkImageSet "tiles.png" ∅ [5] [0] 1)))
    ∧ length (rows r) = length (images (mkImageSet "tiles.png" ∅ [5] [0] 1))
    ∧ ∀ (i : nat) v, images (mkImageSet "tiles.png" ∅ [5] [0] 1) !! i = Some v →
        ∃ o, orientations (mkImageSet "tiles.png" ∅ [5] [0] 1) !! i = Some o
             ∧ rows r !! i
               = Some (Z.rem (Z.of_nat i) (stride (mkImageSet "tiles.png" ∅ [5] [0] 1)),
                       Z.quot (Z.of_nat i) (stride (mkImageSet "tiles.png" ∅ [5] [0] 1)),
                       v, GetOrientationLabel o).
Proof.
  apply (WriteReport_rows (mkImageSet "tiles.png" ∅ [5] [0] 1) (image.Rect 0 0 1 1)
           (worldWith (plain 1 1 grey))).
  - reflexivity.
  - vm_compute. reflexivity.
Defined.

(** X10: [WriteReport] panics exactly when the report file can be created,
    there is at least one cell, and either the stride is 0 (division by
    zero in [GetX]) or the [orientations] array is shorter than the
    [images] array (index out of range); when the file cannot be created it
    only leaves a diagnostic. *)
Theorem WriteReport_panics p bounds w :
  (WriteReport p bounds w = None
   ↔ canCreate w ReportFile = true ∧ images p ≠ []
     ∧ (stride p = 0 ∨ (length (orientations p) < length (images p))%nat))
  ∧ (canCreate w ReportFile = false →
     WriteReport p bounds w = Some (warn ReportCreateError w)).
Proof.
  split.
  - unfold WriteReport. destruct (canCreate w ReportFile) eqn:Hcan.
    + split.
      * intros Hnone. split; [done|].
        destruct (decide (images p = [])) as [Hnil|Hne].
        { rewrite Hnil in Hnone. done. }
        split; [done|].
        destruct (decide (stride p = 0)) as [?|Hs]; [by left|right].
        destruct (decide (length (orientations p) < length (images p))%nat)
          as [?|Hge]; [done|].
        destruct (reportRows_total p 0 (images p)) as [rs Hrs]; [done|simpl; lia|].
        change (Z.of_nat 0) with 0 in Hrs. rewrite Hrs in Hnone. done.
      * intros (_ & Hne & Hbad).
        destruct (reportRows p 0 (images p)) as [rs|] eqn:Hrs; [|done]. exfalso.
        destruct (reportRows_spec p (images p) 0 rs Hrs) as [Hlen Hrows].
        destruct (images p) as [|v vs] eqn:Hi; [done|].
        destruct Hbad as [H0|Hshort].
        { destruct (Hrows 0%nat v eq_refl) as [Hs _]. done. }
        assert (Hlast : is_Some ((v :: vs) !! length vs)).
        { apply lookup_lt_is_Some. simpl. lia. }
        destruct Hlast as [v' Hv'].
        destruct (Hrows (length vs) v' Hv') as [_ (o & Ho & _)].
        apply lookup_lt_Some in Ho. simpl in Hshort, Ho. lia.
    + split; [done|]. intros [? _]. done.
  - intros Hcan. unfold WriteReport. rewrite Hcan. reflexivity.
Qed.

(** ** The whole run *)

(** After the pass over the whole grid every cell holds a key of the
    registry. *)
Lemma runCells_all_registered src p numX numY p' :
  0 ≤ numX → 0 ≤ numY →
  runCells src (cellOrder numX numY) (gridState p numX numY) = Some p' →
  ∀ (i : nat) v, images p' !! i = Some v → is_Some (protoImages p' !! v).
Proof.
  intros Hx Hy Hrun i v Hi.
  destruct (runCells_shape _ _ _ _ Hrun) as (_ & Hs & Hlen & _).
  assert (Hlt : Z.of_nat i < numX * numY).
  { apply lookup_lt_Some in Hi. rewrite Hlen in Hi. simpl in Hi.
    rewrite length_replicate in Hi. lia. }
  destruct (index_cell numX numY i Hlt Hx Hy) as (x & y & Hin & Hidx).
  assert (Hf : filled p' (cellOrder numX numY ++ [])).
  { eapply runCells_filled; [|exact Hrun]. intros ? ? Hnil. by apply elem_of_nil in Hnil. }
  destruct (Hf x y) as (h & Hh & Hkey); [rewrite app_nil_r; done|].
  rewrite Hs in Hh. simpl in Hh. rewrite Hidx, Nat2Z.id in Hh. congruence.
Qed.

Lemma pngFiles_all w entries :
  (∀ path, canCreate w path = true) →
  pngFiles w entries = (λ kv, ImagePng kv.1 kv.2) <$> entries.
Proof.
  intros Hall. unfold pngFiles. induction entries as [|kv entries IH]; [done|].
  cbn [omap list_omap fmap list_fmap]. rewrite Hall, IH. reflexivity.
Qed.

(** X11: a run of the program on a decodable source, in a directory where
    everything can be created, writes the directory, one picture file per
    prototype and, last, the report, and nothing on the standard error
    stream.  The report counts floor(width/128) * floor(height/128) cells
    and at most as many unique textures, and every row of its table names a
    fingerprint for which a picture file was written, whose picture hashes
    to that fingerprint. *)
Theorem main_report_links filename w src :
  files w filename = Decoded src →
  image.wf src →
  (∀ path, canCreate w path = true) →
  ∃ p' w' r pngs,
    sc4texture.main filename w = Some (p', w')
    ∧ written w' = written w ++ [Directory] ++ pngs ++ [ReportHtml r]
    ∧ stderr w' = stderr w
    ∧ textureCells r
      = (image.Dx (image.Bounds src) `div` 128) * (image.Dy (image.Bounds src) `div` 128)
    ∧ 0 ≤ uniqueTextures r ≤ textureCells r
    ∧ length pngs = Z.to_nat (uniqueTextures r)
    ∧ ∀ x y h label, (x, y, h, label) ∈ rows r →
        ∃ img, ImagePng h img ∈ pngs ∧ Hash img = h.
Proof.
  intros Hfile Hwf Hall. unfold sc4texture.main.
  rewrite (Process_decoded (NewImageSet filename) w src Hfile Hwf).
  set (numX := image.Dx (image.Bounds src) `div` 128).
  set (numY := image.Dy (image.Bounds src) `div` 128).
  destruct Hwf as [Hw Hh].
  assert (HnumX : 0 ≤ numX) by (apply Z.div_pos; lia).
  assert (HnumY : 0 ≤ numY) by (apply Z.div_pos; lia).
  destruct (runCells_total src (cellOrder numX numY)
              (gridState (NewImageSet filename) numX numY)) as [p' Hrun].
  { intros x y. apply gridState_cells_in_range. }
  { reflexivity. }
  rewrite Hrun. cbn [mbind option_bind].
  destruct (runCells_shape _ _ _ _ Hrun) as (_ & Hs & Hi & Ho).
  destruct (runCells_size _ _ _ _ Hrun) as [_ Hsize].
  pose proof (runCells_all_registered _ _ _ _ _ HnumX HnumY Hrun) as Hreg.
  assert (Hkeyed : keyed (protoImages p')).
  { eapply runCells_keyed; [|exact Hrun]. apply keyed_empty. }
  rewrite cellOrder_length in Hsize. simpl in Hs, Hi, Ho, Hsize.
  rewrite map_size_empty in Hsize. rewrite length_replicate in Hi, Ho.
  unfold WriteImageFiles. rewrite writePngs_fold. rewrite Hall.
  cbn [emit files canCreate stderr written]. rewrite pngFiles_all by done.
  unfold WriteReport. cbn [canCreate]. rewrite Hall.
  destruct (reportRows_total p' 0 (images p')) as [rs Hrs].
  { intros Hne. rewrite Hs. intros Hzero. apply Hne, nil_length_inv.
    rewrite Hi, Hzero. reflexivity. }
  { simpl. lia. }
  change (Z.of_nat 0) with 0 in Hrs. rewrite Hrs. cbn [mbind option_bind].
  destruct (reportRows_spec p' (images p') 0 rs Hrs) as [Hlen Hrows].
  eexists p', _, _, ((λ kv, ImagePng kv.1 kv.2) <$> map_to_list (protoImages p')).
  split; [reflexivity|].
  cbn [emit written stderr textureCells uniqueTextures rows].
  split; [rewrite <- !app_assoc; reflexivity|]. split; [reflexivity|].
  cbn [textureCells uniqueTextures rows].
  split; [rewrite Hi; lia|]. split; [rewrite Hi; lia|].
  split; [rewrite length_fmap, length_map_to_list; lia|].
  intros x y h label [j Hj]%list_elem_of_lookup_1.
  assert (Hjlt : (j < length (images p'))%nat).
  { apply lookup_lt_Some in Hj. lia. }
  destruct (lookup_lt_is_Some_2 (images p') j Hjlt) as [v Hv].
  destruct (Hrows j v Hv) as [_ (o & _ & Hrow)]. simpl in Hrow.
  rewrite Hj in Hrow. injection Hrow as -> -> -> ->.
  destruct (Hreg j v Hv) as [img Himg]. exists img. split.
  - apply list_elem_of_fmap. exists (v, img). split; [reflexivity|].
    by apply elem_of_map_to_list.
  - symmetry. by apply Hkeyed.
Qed.

Lemma main_report_links_witness :
  ∃ p' w' r pngs,
    sc4texture.main "tiles.png" (worldWith (plain 300 200 grey)) = Some (p', w')
    ∧ written w' = written (worldWith (plain 300 200 grey))
                     ++ [Directory] ++ pngs ++ [ReportHtml r]
    ∧ stderr w' = stderr (worldWith (plain 300 200 grey))
    ∧ textureCells r = (300 `div` 128) * (200 `div` 128)
    ∧ 0 ≤ uniqueTextures r ≤ textureCells r
    ∧ length pngs = Z.to_nat (uniqueTextures r)
    ∧ ∀ x y h label, (x, y, h, label) ∈ rows r →
        ∃ img, ImagePng h img ∈ pngs ∧ Hash img = h.
Proof.
  apply (main_report_links "tiles.png" (worldWith (plain 300 200 grey))
           (plain 300 200 grey)).
  - reflexivity.
  - apply NewNRGBA_wf; lia.
  - reflexivity.
Defined.

(** ** Oriented copies of a prototype *)

Lemma same_refl a : image.same a a.
Proof. split; done. Qed.

Lemma Rotate180_same a b :
  image.wf a → image.same a b → image.same (imaging.Rotate180 a) (imaging.Rotate180 b).
Proof.
  intros [Hw Hh] [Hb Hpx]. unfold imaging.Rotate180. rewrite <- Hb.
  split; [reflexivity|].
  cbn [image.Bounds image.At imaging.NewNRGBA]. rewrite Rect_origin by done.
  intros x y [Hx Hy]. cbn [image.Max image.Min image.X image.Y] in Hx, Hy.
  unfold imaging.px. rewrite <- Hb. apply Hpx.
  unfold image.inside, image.Dx, image.Dy in *. lia.
Qed.

Lemma FlipH_same a b :
  image.wf a → image.same a b → image.same (imaging.FlipH a) (imaging.FlipH b).
Proof.
  intros [Hw Hh] [Hb Hpx]. unfold imaging.FlipH. rewrite <- Hb.
  split; [reflexivity|].
  cbn [image.Bounds image.At imaging.NewNRGBA]. rewrite Rect_origin by done.
  intros x y [Hx Hy]. cbn [image.Max image.Min image.X image.Y] in Hx, Hy.
  unfold imaging.px. rewrite <- Hb. apply Hpx.
  unfold image.inside, image.Dx, image.Dy in *. lia.
Qed.

Lemma FlipH_wf img : image.wf img → image.wf (imaging.FlipH img).
Proof. intros [Hw Hh]. unfold imaging.FlipH. by apply NewNRGBA_wf. Qed.

(** The variants of pictures with the same pixels have the same pixels. *)
Lemma variants_same a b (i : nat) va vb :
  image.wf a → image.same a b →
  variants a !! i = Some va → variants b !! i = Some vb → image.same va vb.
Proof.
  intros Hwf Hsame Ha Hb.
  pose proof (FlipH_wf a Hwf) as Hfwf.
  pose proof (FlipH_same a b Hwf Hsame) as Hf.
  unfold variants in Ha, Hb.
  destruct i as [|[|[|[|[|[|[|[|i]]]]]]]]; simpl in Ha, Hb;
    try discriminate; injection Ha as <-; injection Hb as <-;
    auto using Rotate90_same, Rotate180_same, Rotate270_same.
Qed.

(** Variant [inverseIndex j] of variant [j] of a picture is the picture. *)
Lemma variant_undone T (j : nat) v :
  atOrigin T → variants T !! j = Some v →
  ∃ u, variants v !! inverseIndex j = Some u ∧ image.same u T.
Proof.
  destruct T as [[[x0 y0] [x1 y1]] at_T]. unfold atOrigin, image.wf, image.Dx, image.Dy.
  simpl. intros [[= -> ->] [Hw Hh]] Hv. rewrite Z.sub_0_r in Hw, Hh.
  unfold variants in Hv.
  destruct j as [|[|[|[|[|[|[|[|j]]]]]]]]; simpl in Hv; try discriminate;
    injection Hv as <-; (eexists; split; [reflexivity|]);
    unfold image.same; unfold_imaging;
    repeat (rewrite ?Z.sub_0_r, ?(Rect_origin x1 y1), ?(Rect_origin y1 x1) by lia;
            cbn [image.Bounds image.At image.Max image.Min image.X image.Y]);
    same_pixels.
Qed.

(** X12: a tile that is an oriented copy of a registered prototype never
    becomes a prototype itself.  If the tile has the pixels of variant [j]
    of a picture whose fingerprint is a key of the registry, [AddImage]
    leaves the registry as it is and records a registered fingerprint with
    an orientation code of at most [inverseIndex j]; when no earlier variant
    of the tile matches, it records the fingerprint of that picture with the
    code [inverseIndex j]. *)
Theorem oriented_copy_deduplicated p P T (j : nat) v x y :
  atOrigin P → atOrigin T →
  variants P !! j = Some v → image.same T v →
  is_Some (protoImages p !! Hash P) →
  0 ≤ y * stride p + x < Z.of_nat (length (images p)) →
  0 ≤ y * stride p + x < Z.of_nat (length (orientations p)) →
  ∃ (i : nat) h,
    (i ≤ inverseIndex j)%nat
    ∧ is_Some (protoImages p !! h)
    ∧ AddImage p T x y =
        Some (mkImageSet (SourceImagePath p) (protoImages p)
                (<[Z.to_nat (y * stride p + x) := h]> (images p))
                (<[Z.to_nat (y * stride p + x) := Z.of_nat i]> (orientations p))
                (stride p))
    ∧ ((∀ h', h' ∈ take (inverseIndex j) (fingerprints T) → protoImages p !! h' = None) →
       i = inverseIndex j ∧ h = Hash P).
Proof.
  intros HP HT Hv Hsame Hkey Hi Ho.
  destruct (variant_undone P j v HP Hv) as (u & Hu & HuP).
  assert (Hlt : (inverseIndex j < 8)%nat).
  { apply lookup_lt_Some in Hu. exact Hu. }
  destruct (lookup_lt_is_Some_2 (variants T) (inverseIndex j) Hlt) as [t Ht].
  assert (Hfp : fingerprints T !! inverseIndex j = Some (Hash P)).
  { unfold fingerprints. rewrite list_lookup_fmap, Ht. simpl. f_equal.
    apply Hash_same.
    - eapply same_trans; [|exact HuP].
      exact (variants_same T v _ t u (proj2 HT) Hsame Ht Hu).
    - apply (variants_atOrigin T t HT). eapply list_elem_of_lookup_2. exact Ht. }
  destruct (list_find (λ h, is_Some (protoImages p !! h)) (fingerprints T))
    as [[i h]|] eqn:Hfind.
  - apply list_find_Some in Hfind as Hspec. destruct Hspec as (Hih & Hh & Hfirst).
    assert (Hle : (i ≤ inverseIndex j)%nat).
    { destruct (decide (i ≤ inverseIndex j)%nat) as [|Hgt]; [done|]. exfalso.
      apply (Hfirst (inverseIndex j) (Hash P)); [done|lia|done]. }
    exists i, h. split; [done|]. split; [done|]. split.
    + rewrite AddImage_resolveCell. unfold resolveCell.
      rewrite Hfind, !store_Some by done. reflexivity.
    + intros Hnone.
      destruct (decide (i = inverseIndex j)) as [->|Hne].
      * split; [done|]. congruence.
      * exfalso. assert (Hin : h ∈ take (inverseIndex j) (fingerprints T)).
        { apply (list_elem_of_lookup_2 _ i). rewrite lookup_take_lt by lia. done. }
        apply Hnone in Hin. destruct Hh as [? Hh]. congruence.
  - exfalso. apply list_find_None in Hfind. rewrite Forall_forall in Hfind.
    apply (Hfind (Hash P)); [|done]. eapply list_elem_of_lookup_2. exact Hfp.
Qed.

Lemma oriented_copy_deduplicated_witness :
  ∃ (i : nat) h,
    (i ≤ inverseIndex 1)%nat
    ∧ is_Some (protoImages (oneCell {[ Hash twoTone := twoTone ]}) !! h)
    ∧ AddImage (oneCell {[ Hash twoTone := twoTone ]}) (imaging.Rotate90 twoTone) 0 0 =
        Some (mkImageSet (SourceImagePath (oneCell {[ Hash twoTone := twoTone ]}))
                (protoImages (oneCell {[ Hash twoTone := twoTone ]}))
                (<[Z.to_nat (0 * stride (oneCell {[ Hash twoTone := twoTone ]}) + 0) := h]>
                   (images (oneCell {[ Hash twoTone := twoTone ]})))
                (<[Z.to_nat (0 * stride (oneCell {[ Hash twoTone := twoTone ]}) + 0)
                   := Z.of_nat i]>
                   (orientations (oneCell {[ Hash twoTone := twoTone ]})))
                (stride (oneCell {[ Hash twoTone := twoTone ]})))
    ∧ ((∀ h', h' ∈ take (inverseIndex 1) (fingerprints (imaging.Rotate90 twoTone)) →
              protoImages (oneCell {[ Hash twoTone := twoTone ]}) !! h' = None) →
       i = inverseIndex 1 ∧ h = Hash twoTone).
Proof.
  apply (oriented_copy_deduplicated (oneCell {[ Hash twoTone := twoTone ]}) twoTone
           (imaging.Rotate90 twoTone) 1 (imaging.Rotate90 twoTone) 0 0).
  - apply NewNRGBA_atOrigin; lia.
  - apply NewNRGBA_atOrigin; unfold image.Dx, image.Dy; simpl; lia.
  - reflexivity.
  - apply same_refl.
  - unfold oneCell; cbn [protoImages]. rewrite lookup_singleton_eq. eexists. reflexivity.
  - simpl. lia.
  - simpl. lia.
Defined.

(** ** More on the pixel hasher *)

Lemma be32_byte value k b : be32 value !! k = Some b → 0 ≤ b < 256.
Proof.
  unfold be32, u8. intros Hk.
  destruct k as [|[|[|[|k]]]]; simpl in Hk; try discriminate;
    injection Hk as <-; apply Z.mod_pos_bound; lia.
Qed.

Lemma byte_of_shift value (n : Z) :
  0 ≤ n → u8 (Z.land (Z.shiftr value n) 255) = (value `div` 2 ^ n) `mod` 256.
Proof.
  intros Hn. change 255 with (Z.ones 8). rewrite Z.land_ones by lia.
  rewrite Z.shiftr_div_pow2 by lia. unfold u8.
  change (2 ^ 8) with 256. rewrite Z.mod_mod by lia. reflexivity.
Qed.

(** X13: [convertUint32ToBytes] overwrites the four bytes of its slice and
    nothing else in the buffer that the slice shares; the bytes written are
    the big-endian encoding of the value: each lies between 0 and 255, and
    read most significant first they give the value back. *)
Theorem convertUint32ToBytes_roundtrip value pre old suf :
  length old = 4%nat →
  0 ≤ value < 2 ^ 32 →
  ∃ b0 b1 b2 b3,
    convertUint32ToBytes value (pre ++ old ++ suf) (Z.of_nat (length pre))
      = pre ++ [b0; b1; b2; b3] ++ suf
    ∧ (0 ≤ b0 < 256 ∧ 0 ≤ b1 < 256 ∧ 0 ≤ b2 < 256 ∧ 0 ≤ b3 < 256)
    ∧ beValue [b0; b1; b2; b3] = value.
Proof.
  intros Hold Hv. eexists _, _, _, _. split; [|split].
  - rewrite (convertUint32ToBytes_here value pre old suf) by done. reflexivity.
  - split; [|split; [|split]].
    + exact (be32_byte value 0%nat _ eq_refl).
    + exact (be32_byte value 1%nat _ eq_refl).
    + exact (be32_byte value 2%nat _ eq_refl).
    + exact (be32_byte value 3%nat _ eq_refl).
  - unfold beValue. cbn [fold_left].
    rewrite !byte_of_shift by lia.
    replace (u8 (Z.land value 255)) with ((value `div` 2 ^ 0) `mod` 256)
      by (rewrite <- byte_of_shift by lia; rewrite Z.shiftr_0_r; reflexivity).
    change (2 ^ 0) with 1. change (2 ^ 8) with 256. change (2 ^ 16) with 65536.
    change (2 ^ 24) with 16777216. change (2 ^ 32) with 4294967296 in Hv.
    rewrite Z.div_1_r.
    pose proof (Z.div_mod value 256 ltac:(lia)).
    pose proof (Z.div_mod (value `div` 256) 256 ltac:(lia)).
    pose proof (Z.div_mod (value `div` 65536) 256 ltac:(lia)).
    pose proof (Z.div_mod (value `div` 16777216) 256 ltac:(lia)).
    assert (value `div` 65536 = (value `div` 256) `div` 256)
      by (rewrite Z.div_div by lia; reflexivity).
    assert (value `div` 16777216 = (value `div` 65536) `div` 256)
      by (rewrite Z.div_div by lia; reflexivity).
    assert ((value `div` 16777216) `div` 256 = 0).
    { rewrite Z.div_div by lia. apply Z.div_small. lia. }
    lia.
Qed.

Lemma convertUint32ToBytes_roundtrip_witness :
  ∃ b0 b1 b2 b3,
    convertUint32ToBytes 65535 ([7] ++ [1; 2; 3; 4] ++ [9]) (Z.of_nat (length [7]))
      = [7] ++ [b0; b1; b2; b3] ++ [9]
    ∧ (0 ≤ b0 < 256 ∧ 0 ≤ b1 < 256 ∧ 0 ≤ b2 < 256 ∧ 0 ≤ b3 < 256)
    ∧ beValue [b0; b1; b2; b3] = 65535.
Proof.
  apply (convertUint32ToBytes_roundtrip 65535 [7] [1; 2; 3; 4] [9]).
  - reflexivity.
  - lia.
Defined.

Lemma colourBytes_length c : length (colourBytes c) = 12%nat.
Proof. unfold colourBytes. destruct (color.RGBA c) as [[[r g] b] a]. reflexivity. Qed.

Lemma alphaBytes_length c : length (alphaBytes c) = 4%nat.
Proof. unfold alphaBytes. destruct (color.RGBA c) as [[[r g] b] a]. reflexivity. Qed.

Lemma colour_run_length cs : length (c ← cs; colourBytes c) = (12 * length cs)%nat.
Proof.
  induction cs as [|c cs IH]; [reflexivity|].
  cbn [mbind list_bind]. rewrite length_app, colourBytes_length, IH. simpl. lia.
Qed.

Lemma packed_length img : length (packed img) = (16 * length (pixels img))%nat.
Proof.
  unfold packed. destruct (last (pixels img)) as [c|] eqn:Hlast.
  - rewrite !length_app, colour_run_length, alphaBytes_length, length_replicate.
    destruct (pixels img); [discriminate|]. simpl. lia.
  - apply last_None in Hlast. rewrite Hlast. reflexivity.
Qed.

(** X14: for every picture the buffer that [Hash] fills has 16 bytes per
    pixel but holds, in row-major order, only the twelve bytes of the R, G
    and B channels of every pixel, followed by the four alpha bytes of the
    last pixel and by zeros; the fingerprint is the FNV-1a hash of that
    buffer. *)
Theorem Hash_buffer_layout img :
  image.wf img →
  hashData img = packed img
  ∧ length (hashData img)
    = (16 * (Z.to_nat (image.Dx (image.Bounds img))
             * Z.to_nat (image.Dy (image.Bounds img))))%nat
  ∧ Hash img = fnv.Write fnv.offset64 (packed img).
Proof.
  intros Hwf. split; [by apply hashData_packed|]. split.
  - rewrite hashData_packed, packed_length, pixels_length by done. lia.
  - by apply Hash_packed.
Qed.

Lemma Hash_buffer_layout_witness :
  hashData twoTone = packed twoTone
  ∧ length (hashData twoTone)
    = (16 * (Z.to_nat (image.Dx (image.Bounds twoTone))
             * Z.to_nat (image.Dy (image.Bounds twoTone))))%nat
  ∧ Hash twoTone = fnv.Write fnv.offset64 (packed twoTone).
Proof.
  apply (Hash_buffer_layout twoTone). apply NewNRGBA_wf; lia.
Defined.

Lemma step_range hash c : 0 ≤ fnv.step hash c < 2 ^ 64.
Proof. unfold fnv.step, u64. apply Z.mod_pos_bound. lia. Qed.

Lemma Write_range data : ∀ hash,
  0 ≤ hash < 2 ^ 64 → 0 ≤ fnv.Write hash data < 2 ^ 64.
Proof.
  unfold fnv.Write. induction data as [|c data IH]; intros hash Hh; [done|].
  cbn [fold_left]. apply IH, step_range.
Qed.

(** X15: a fingerprint is a value of 64 bits, and the fingerprint of a
    picture without pixels (zero width or zero height) is the offset basis
    of FNV-1a, whatever its bounds: all empty pictures share one
    fingerprint. *)
Theorem Hash_range_and_empty img :
  0 ≤ Hash img < 2 ^ 64
  ∧ (image.wf img →
     image.Dx (image.Bounds img) = 0 ∨ image.Dy (image.Bounds img) = 0 →
     hashData img = [] ∧ Hash img = 14695981039346656037).
Proof.
  split.
  - unfold Hash, fnv.Sum64, fnv.New64a. apply Write_range.
    unfold fnv.offset64. lia.
  - intros Hwf Hzero.
    assert (Hnil : hashData img = []).
    { apply nil_length_inv. rewrite hashData_packed, packed_length, pixels_length by done.
      destruct Hzero as [-> | ->]; simpl; lia. }
    split; [done|]. unfold Hash. rewrite Hnil. reflexivity.
Qed.

Lemma pixels_last img :
  0 < image.Dx (image.Bounds img) → 0 < image.Dy (image.Bounds img) →
  last (pixels img)
  = Some (image.At img (image.X (image.Max (image.Bounds img)) - 1)
                       (image.Y (image.Max (image.Bounds img)) - 1)).
Proof.
  intros Hx Hy. unfold pixels.
  set (w := image.Dx (image.Bounds img)) in *. set (h := image.Dy (image.Bounds img)) in *.
  replace h with (Z.of_nat (S (Z.to_nat (h - 1)))) by lia.
  replace w with (Z.of_nat (S (Z.to_nat (w - 1)))) by lia.
  rewrite (seqZ_S (image.Y _)), bind_app. cbn [mbind list_bind].
  rewrite app_nil_r, (seqZ_S (image.X _)), fmap_app. cbn [fmap list_fmap].
  rewrite app_assoc, last_snoc. f_equal.
  subst w h. unfold image.Dx, image.Dy in *. f_equal; lia.
Qed.

Lemma grid_bytes_ext {T U : Type} (f f' : Z → Z → T) (g : T → list U) (ys xs : list Z) :
  (∀ x y, x ∈ xs → y ∈ ys → g (f x y) = g (f' x y)) →
  (y ← ys; (λ x, f x y) <$> xs) ≫= g = (y ← ys; (λ x, f' x y) <$> xs) ≫= g.
Proof.
  intros Hext. induction ys as [|y ys IH]; [reflexivity|].
  cbn [mbind list_bind]. rewrite !bind_app. f_equal.
  - assert (Hrow : ∀ x, x ∈ xs → g (f x y) = g (f' x y))
      by (intros x Hx; apply Hext; [done|left]).
    clear -Hrow. induction xs as [|x xs IHx]; [reflexivity|].
    cbn [fmap list_fmap mbind list_bind]. f_equal.
    + apply Hrow. left.
    + apply IHx. intros x' Hx'. apply Hrow. by right.
  - apply IH. intros x y' Hx Hy. apply Hext; [done|by right].
Qed.

(** X16: the fingerprint sees the alpha channel only through the
    premultiplied colour channels and through the last pixel: two pictures
    with the same bounds whose pixels have the same premultiplied R, G and
    B values everywhere, and the same alpha value at the bottom-right
    pixel, have the same fingerprint, whatever the alpha values of the
    other pixels are. *)
Theorem Hash_alpha_blind a b :
  image.wf a →
  image.Bounds a = image.Bounds b →
  (∀ x y, image.inside (image.Bounds a) x y →
          (color.RGBA (image.At a x y)).1 = (color.RGBA (image.At b x y)).1) →
  (color.RGBA (image.At a (image.X (image.Max (image.Bounds a)) - 1)
                          (image.Y (image.Max (image.Bounds a)) - 1))).2
  = (color.RGBA (image.At b (image.X (image.Max (image.Bounds a)) - 1)
                            (image.Y (image.Max (image.Bounds a)) - 1))).2 →
  hashData a = hashData b ∧ Hash a = Hash b.
Proof.
  intros Hwf Hb Hrgb Halpha.
  assert (Hwfb : image.wf b) by (unfold image.wf; rewrite <- Hb; done).
  assert (Hdata : hashData a = hashData b).
  { rewrite !hashData_packed by done. unfold packed.
    assert (Hlen : length (pixels a) = length (pixels b))
      by (rewrite !pixels_length, Hb; reflexivity).
    assert (Hcol : (c ← pixels a; colourBytes c) = (c ← pixels b; colourBytes c)).
    { unfold pixels. rewrite <- Hb. apply grid_bytes_ext.
      intros x y Hx%elem_of_seqZ Hy%elem_of_seqZ.
      assert (Hin : image.inside (image.Bounds a) x y)
        by (unfold image.inside, image.Dx, image.Dy in *; lia).
      specialize (Hrgb x y Hin). unfold colourBytes.
      destruct (color.RGBA (image.At a x y)) as [[[r g] b'] al].
      destruct (color.RGBA (image.At b x y)) as [[[r2 g2] b2] al2].
      simpl in Hrgb. injection Hrgb as -> -> ->. reflexivity. }
    destruct Hwf as [Hw Hh].
    destruct (decide (0 < image.Dx (image.Bounds a) ∧ 0 < image.Dy (image.Bounds a)))
      as [[Hx Hy]|Hempty].
    - rewrite (pixels_last a Hx Hy), (pixels_last b) by (rewrite <- Hb; done).
      rewrite <- Hb, Hcol, Hlen. do 2 f_equal. unfold alphaBytes.
      destruct (color.RGBA (image.At a _ _)) as [[[r g] b'] al].
      destruct (color.RGBA (image.At b _ _)) as [[[r2 g2] b2] al2].
      simpl in Halpha. subst al2. reflexivity.
    - assert (Hnil : pixels a = []).
      { apply nil_length_inv. rewrite pixels_length. nia. }
      assert (Hnilb : pixels b = [])
        by (apply nil_length_inv; rewrite <- Hlen, Hnil; reflexivity).
      rewrite Hnil, Hnilb. reflexivity. }
  split; [done|]. unfold Hash. rewrite Hdata. reflexivity.
Qed.

Lemma Hash_alpha_blind_witness :
  hashData opaqueTile = hashData piercedTile ∧ Hash opaqueTile = Hash piercedTile.
Proof.
  apply (Hash_alpha_blind opaqueTile piercedTile).
  - apply NewNRGBA_wf; lia.
  - reflexivity.
  - intros x y _. unfold opaqueTile, piercedTile. cbn [image.At imaging.NewNRGBA].
    case_decide; reflexivity.
  - reflexivity.
Defined.

(** ** The second program *)

(** X17: the second program returns normally only when the file decodes,
    and then it prints the bounds of the picture and nothing else; on every
    failure to open or to decode it prints its diagnostics, the one of the
    decoder included, and then panics instead of returning, without
    printing any bounds. *)
Theorem inspect_main_outcomes filename files :
  (∀ img, files filename = Decoded img →
          inspect.main filename files = ([inspect.ImageDetails (image.Bounds img)], true))
  ∧ ((∀ img, files filename ≠ Decoded img) →
     (inspect.main filename files).2 = false
     ∧ last (inspect.main filename files).1 = Some inspect.FailedToDecode
     ∧ ∀ bounds, inspect.ImageDetails bounds ∉ (inspect.main filename files).1)
  ∧ (files filename = DecodeFailed →
     inspect.main filename files = ([inspect.FailedToDecode], false))
  ∧ (files filename = OpenNotExist →
     inspect.main filename files
     = ([inspect.FailedToOpen filename; inspect.FailedToDecode], false)).
Proof.
  unfold inspect.main. split; [|split; [|split]].
  - intros img ->. reflexivity.
  - intros Hfail. destruct (files filename) as [| | | |img] eqn:Hf;
      try (split; [reflexivity|split; [reflexivity|]];
           intros bounds Hin; simpl in Hin;
           repeat (apply elem_of_cons in Hin as [Hin|Hin]; [discriminate|]);
           by apply elem_of_nil in Hin).
    exfalso. by apply (Hfail img).
  - intros ->. reflexivity.
  - intros ->. reflexivity.
Qed.

(** ** Running [Process] again *)

Lemma AddImage_resolves p img x y p' :
  AddImage p img x y = Some p' →
  ∃ h, h ∈ fingerprints img ∧ is_Some (protoImages p' !! h).
Proof.
  intros H. destruct (AddImage_inv _ _ _ _ _ H) as (_ & _ & _ & _ & Hcase).
  destruct Hcase as [(i & h & Hi & Hkey & _ & -> & _) | (_ & -> & _)].
  - exists h. split; [|done]. eapply list_elem_of_lookup_2. exact Hi.
  - exists (Hash img). split; [left|]. rewrite lookup_insert_eq. eauto.
Qed.

Lemma resolved_weaken src m1 m2 cells :
  m1 ⊆ m2 → resolved src m1 cells → resolved src m2 cells.
Proof.
  intros Hsub Hres x y Hin. destruct (Hres x y Hin) as (h & Hh & Hkey).
  exists h. split; [done|]. eapply lookup_weaken_is_Some; done.
Qed.

Lemma runCells_resolved src cells p p' :
  runCells src cells p = Some p' → resolved src (protoImages p') cells.
Proof.
  revert p. induction cells as [|[x y] cells IH]; intros p; simpl.
  - intros _ x y Hin. by apply elem_of_nil in Hin.
  - destruct (AddImage p (cellTile src x y) x y) as [p1|] eqn:H1; [|done].
    intros Hrun x' y' Hin. apply elem_of_cons in Hin as [[= -> ->]|Hin].
    + destruct (AddImage_resolves _ _ _ _ _ H1) as (h & Hh & Hkey).
      exists h. split; [done|].
      eapply lookup_weaken_is_Some; [done|].
      exact (proj1 (runCells_size _ _ _ _ Hrun)).
    + exact (IH _ Hrun x' y' Hin).
Qed.

Lemma AddImage_no_growth p img x y p' h :
  h ∈ fingerprints img → is_Some (protoImages p !! h) →
  AddImage p img x y = Some p' → protoImages p' = protoImages p.
Proof.
  intros Hh Hkey. rewrite AddImage_resolveCell. unfold resolveCell.
  destruct (list_find _ (fingerprints img)) as [[i h']|] eqn:Hfind.
  - destruct (store (orientations p) _ _); [|done].
    destruct (store (images p) _ _); [|done].
    cbn [mbind option_bind]. intros [= <-]. reflexivity.
  - apply list_find_None in Hfind. rewrite Forall_forall in Hfind.
    destruct (Hfind h Hh Hkey).
Qed.

Lemma runCells_no_growth src cells p p' :
  resolved src (protoImages p) cells →
  runCells src cells p = Some p' → protoImages p' = protoImages p.
Proof.
  revert p. induction cells as [|[x y] cells IH]; intros p Hres; simpl.
  - intros [= ->]. done.
  - destruct (AddImage p (cellTile src x y) x y) as [p1|] eqn:H1; [|done].
    intros Hrun. destruct (Hres x y) as (h & Hh & Hkey); [left|].
    pose proof (AddImage_no_growth _ _ _ _ _ _ Hh Hkey H1) as Hsame.
    rewrite <- Hsame. apply IH; [|done]. rewrite Hsame.
    intros x' y' Hin. apply Hres. by right.
Qed.

Lemma WriteReport_files p bounds w w' :
  WriteReport p bounds w = Some w' → files w' = files w.
Proof.
  unfold WriteReport. destruct (canCreate w ReportFile).
  - destruct (reportRows p 0 (images p)); [|done]. simpl. intros [= <-]. reflexivity.
  - intros [= <-]. reflexivity.
Qed.

Lemma WriteImageFiles_files p w : files (WriteImageFiles p w) = files w.
Proof.
  unfold WriteImageFiles. rewrite writePngs_fold. simpl.
  by destruct (canCreate w ImagesDir).
Qed.

(** X18: running [Process] a second time on the image set that a first run
    left (the registry is kept, the arrays are made anew) ends as well and
    adds no prototype: every tile of the grid already has a variant whose
    fingerprint is a key, so the registry after the second run is the
    registry after the first. *)
Theorem Process_twice_same_registry p w src :
  files w (SourceImagePath p) = Decoded src →
  image.wf src →
  ∃ p1 w1 p2 w2,
    Process p w = Some (p1, w1)
    ∧ Process p1 w1 = Some (p2, w2)
    ∧ protoImages p2 = protoImages p1
    ∧ length (images p2) = length (images p1).
Proof.
  intros Hfile Hwf.
  pose proof (Process_decoded p w src Hfile Hwf) as HP. cbv zeta in HP.
  set (numX := image.Dx (image.Bounds src) `div` 128) in *.
  set (numY := image.Dy (image.Bounds src) `div` 128) in *.
  destruct (Process_run p w src Hfile Hwf) as (p1 & w1 & HP1 & Hrun1).
  fold numX numY in Hrun1.
  rewrite HP1, Hrun1 in HP. cbn [mbind option_bind] in HP.
  destruct (WriteReport p1 (image.Bounds src) (WriteImageFiles p1 w)) as [w1'|] eqn:Hw1;
    [|done].
  cbn [mbind option_bind] in HP. injection HP as <-.
  destruct (runCells_shape _ _ _ _ Hrun1) as (Hpath & _ & Hlen1 & _).
  assert (Hfile1 : files w1 (SourceImagePath p1) = Decoded src).
  { rewrite (WriteReport_files _ _ _ _ Hw1), WriteImageFiles_files, Hpath. exact Hfile. }
  destruct (Process_run p1 w1 src Hfile1 Hwf) as (p2 & w2 & HP2 & Hrun2).
  fold numX numY in Hrun2.
  exists p1, w1, p2, w2. split; [done|]. split; [done|]. split.
  - apply (runCells_no_growth src (cellOrder numX numY) (gridState p1 numX numY));
      [|exact Hrun2].
    exact (runCells_resolved _ _ _ _ Hrun1).
  - destruct (runCells_shape _ _ _ _ Hrun2) as (_ & _ & Hlen2 & _).
    rewrite Hlen1, Hlen2. reflexivity.
Qed.

Lemma Process_twice_same_registry_witness :
  ∃ p1 w1 p2 w2,
    Process (NewImageSet "tiles.png") (worldWith (plain 300 200 grey)) = Some (p1, w1)
    ∧ Process p1 w1 = Some (p2, w2)
    ∧ protoImages p2 = protoImages p1
    ∧ length (images p2) = length (images p1).
Proof.
  apply (Process_twice_same_registry (NewImageSet "tiles.png")
           (worldWith (plain 300 200 grey)) (plain 300 200 grey)).
  - reflexivity.
  - apply NewNRGBA_wf; lia.
Defined.
